(** * perf_model: a bounded FIFO channel between a bursty producer and a
      fixed-rate consumer, with a drain monitor

    Shallow embedding of [perf_model.cpp].  The development has three layers:

    - [Fifo]: the fields and the method bodies of class [fifo], statement by
      statement, over 32-bit unsigned integers with their wrap-around;
    - [Chan]: one writer thread and one reader thread calling the blocking
      methods, with the two [sc_event]s and their immediate notification;
    - [Model]: the three [SC_THREAD]s of the program ([producer::main],
      [consumer::main], [top::monitor_thread]) under the cooperative
      scheduler, with the [prod_done_sig] signal and simulated time. *)

From Stdlib Require Import ZArith List Lia QArith Qround.
From stdpp Require Import base tactics option list.

Local Open Scope Z_scope.

(** ** 32-bit unsigned arithmetic *)

Module U32.

Definition modulus : Z := 2 ^ 32.

(** The value of an expression after conversion to [uint32_t]. *)
Definition wrap (z : Z) : Z := z mod modulus.

End U32.

(** ** Class [fifo] *)

Module Fifo.

(** The data members of [fifo].  [data] is the heap array of [fifo_size]
    cells; [last_time] is an [sc_time], counted in nanoseconds.  The two
    [sc_event] members carry no data and live in [Chan]. *)
Record fifo : Type := mk_fifo {
  data : list Z;
  fifo_size : Z;
  wr_ptr : Z;
  rd_ptr : Z;
  buffer_size : Z;
  read_count : Z;
  max_buffered : Z;
  average_acc : Z;
  last_time : Z
}.

Definition set_data (v : list Z) (q : fifo) : fifo :=
  mk_fifo v (fifo_size q) (wr_ptr q) (rd_ptr q) (buffer_size q)
          (read_count q) (max_buffered q) (average_acc q) (last_time q).

Definition set_wr_ptr (v : Z) (q : fifo) : fifo :=
  mk_fifo (data q) (fifo_size q) v (rd_ptr q) (buffer_size q)
          (read_count q) (max_buffered q) (average_acc q) (last_time q).

Definition set_rd_ptr (v : Z) (q : fifo) : fifo :=
  mk_fifo (data q) (fifo_size q) (wr_ptr q) v (buffer_size q)
          (read_count q) (max_buffered q) (average_acc q) (last_time q).

Definition set_buffer_size (v : Z) (q : fifo) : fifo :=
  mk_fifo (data q) (fifo_size q) (wr_ptr q) (rd_ptr q) v
          (read_count q) (max_buffered q) (average_acc q) (last_time q).

Definition set_read_count (v : Z) (q : fifo) : fifo :=
  mk_fifo (data q) (fifo_size q) (wr_ptr q) (rd_ptr q) (buffer_size q)
          v (max_buffered q) (average_acc q) (last_time q).

Definition set_max_buffered (v : Z) (q : fifo) : fifo :=
  mk_fifo (data q) (fifo_size q) (wr_ptr q) (rd_ptr q) (buffer_size q)
          (read_count q) v (average_acc q) (last_time q).

Definition set_average_acc (v : Z) (q : fifo) : fifo :=
  mk_fifo (data q) (fifo_size q) (wr_ptr q) (rd_ptr q) (buffer_size q)
          (read_count q) (max_buffered q) v (last_time q).

Definition set_last_time (v : Z) (q : fifo) : fifo :=
  mk_fifo (data q) (fifo_size q) (wr_ptr q) (rd_ptr q) (buffer_size q)
          (read_count q) (max_buffered q) (average_acc q) v.

(** [SC_ZERO_TIME]. *)
Definition SC_ZERO_TIME : Z := 0.

(** The constructor [fifo(name, fifo_size)].  [new uint32_t[fifo_size]]
    leaves the cells indeterminate; they are filled with 0 here, and no cell
    is read before it has been written as long as the blocking protocol is
    followed. *)
Definition ctor (size : Z) : fifo :=
  {| data := replicate (Z.to_nat size) 0;
     fifo_size := size;
     wr_ptr := 0;
     rd_ptr := 0;
     buffer_size := 0;
     read_count := 0;
     max_buffered := 0;
     average_acc := 0;
     last_time := SC_ZERO_TIME |}.

(** [data[i]]: the cell at index [i]. *)
Definition cell (q : fifo) (i : Z) : Z := default 0 (data q !! Z.to_nat i).

Definition is_empty (q : fifo) : bool := buffer_size q =? 0.

Definition is_full (q : fifo) : bool := buffer_size q =? fifo_size q.

Definition get_buffer_size (q : fifo) : Z := buffer_size q.

(** [reset()]. *)
Definition reset (q : fifo) : fifo :=
  let q := set_buffer_size 0 q in
  let q := set_wr_ptr 0 q in
  set_rd_ptr 0 q.

(** [compute_status()]. *)
Definition compute_status (q : fifo) : fifo :=
  let q := set_average_acc (U32.wrap (average_acc q + buffer_size q)) q in
  let q := if max_buffered q <? buffer_size q
           then set_max_buffered (buffer_size q) q
           else q in
  set_read_count (U32.wrap (read_count q + 1)) q.

(** The statements of [write(pd)] that follow the [if]: store at [wr_ptr],
    post-increment it, count the element, wrap the pointer.  The final
    [write_event.notify()] is performed by the caller of this segment. *)
Definition write_body (pd : Z) (q : fifo) : fifo :=
  let q := set_data (<[Z.to_nat (wr_ptr q) := pd]> (data q)) q in
  let q := set_wr_ptr (U32.wrap (wr_ptr q + 1)) q in
  let q := set_buffer_size (U32.wrap (buffer_size q + 1)) q in
  set_wr_ptr (if wr_ptr q =? fifo_size q then 0 else wr_ptr q) q.

(** The statements of [read(pd)] that follow the [if]: [compute_status()],
    load from [rd_ptr], post-increment it, uncount the element, wrap the
    pointer.  Returns the value stored into [pd]. *)
Definition read_body (q : fifo) : Z * fifo :=
  let q := compute_status q in
  let pd := cell q (rd_ptr q) in
  let q := set_rd_ptr (U32.wrap (rd_ptr q + 1)) q in
  let q := set_buffer_size (U32.wrap (buffer_size q - 1)) q in
  (pd, set_rd_ptr (if rd_ptr q =? fifo_size q then 0 else rd_ptr q) q).

(** The first statement of [read(pd)]:
    [last_time = sc_core::sc_time_stamp()]. *)
Definition read_stamp (now : Z) (q : fifo) : fifo := set_last_time now q.

(** The exponent of the positive rational [n / d]: the [e] with
    [2^e <= n / d < 2^(e+1)]. *)
Definition exponent (n d : Z) : Z :=
  let e := Z.log2 n - Z.log2 d in
  if n * 2 ^ Z.max 0 (- e) <? d * 2 ^ Z.max 0 e then e - 1 else e.

(** The integer nearest to [n / d] for [d > 0], the even one of two that
    are equally near. *)
Definition round_half_even (n d : Z) : Z :=
  let qu := n / d in
  let r := n mod d in
  if 2 * r <? d then qu
  else if d <? 2 * r then qu + 1
  else if Z.even qu then qu else qu + 1.

(** The [double] nearest to a rational: 53 significant bits, round to
    nearest, ties to even.  The exponent is not bounded here; no quantity of
    the program comes near the ends of the exponent range of [double]. *)
Definition binary64 (x : Q) : Q :=
  let n := Qnum x in
  let d := Z.pos (Qden x) in
  if n =? 0 then 0%Q else
  let s := 52 - exponent (Z.abs n) d in
  let m :=
    round_half_even (Z.abs n * 2 ^ Z.max 0 s) (d * 2 ^ Z.max 0 (- s)) in
  (inject_Z (Z.sgn n * m * 2 ^ Z.max 0 (- s)) / inject_Z (2 ^ Z.max 0 s))%Q.

(** [double(a) / b] for two [uint32_t] values, which convert to [double]
    exactly: the quotient rounded to [double].  With [b = 0] the result is
    an infinity or a NaN, no number; that case is [None]. *)
Definition divide (a b : Z) : option Q :=
  if b =? 0 then None else Some (binary64 (inject_Z a / inject_Z b)%Q).

(** The time resolution, which the program leaves at its default of 1 ps:
    the number of resolution units in one nanosecond. *)
Definition resolution : Z := 1000.

(** [t / d] for an [sc_time t] (here in nanoseconds) and an integer [d]
    converted to [double], in resolution units: [sc_time::operator/]
    evaluates [uint64_to_double(m_value) / d + 0.5] in [double] and converts
    the result to [int64].  With [d = 0] an infinity or a NaN would be
    converted, which is undefined; that case is [None]. *)
Definition sc_time_div (t d : Z) : option Z :=
  if d =? 0 then None
  else
    let v := binary64 (inject_Z (resolution * t)) in
    let x := binary64 (v / inject_Z d)%Q in
    Some (Qfloor (binary64 (x + (1 # 2))%Q)).

(** The figures printed by [~fifo()], in the order of the five lines.  The
    average transfer time is in resolution units, the total time in
    nanoseconds. *)
Record report : Type := mk_report {
  r_fifo_size : Z;
  r_avg_fill_depth : Q;
  r_avg_transfer_time : Z;
  r_total_transferred : Z;
  r_total_time : Z
}.

(** [~fifo()]: [double(average_acc)/read_count] and [last_time/read_count]
    are computed unconditionally. *)
Definition dtor (q : fifo) : option report :=
  avg ← divide (average_acc q) (read_count q);
  per ← sc_time_div (last_time q) (read_count q);
  Some (mk_report (fifo_size q) avg per (read_count q) (last_time q)).

End Fifo.

(** ** The channel with its two client threads *)

Module Chan.

Import Fifo.

(** Where the writer thread stands with respect to [write]: outside the
    method, suspended in [wait(read_event)] with its argument [pd], or made
    runnable again by a notification of [read_event] and not yet resumed. *)
Inductive wstate : Type :=
| WIdle
| WWait (pd : Z)
| WReady (pd : Z).

(** The same for the reader thread and [wait(write_event)]. *)
Inductive rstate : Type :=
| RIdle
| RWait
| RReady.

(** The channel object, the two threads bound to it, and the value of
    [sc_time_stamp()]. *)
Record chan : Type := mk_chan {
  q : fifo;
  writer : wstate;
  reader : rstate;
  now : Z
}.

Definition init (size : Z) : chan :=
  {| q := ctor size; writer := WIdle; reader := RIdle; now := SC_ZERO_TIME |}.

(** [write_event.notify()]: an immediate notification makes a thread that is
    waiting on the event runnable, and is lost otherwise. *)
Definition notify_write_event (r : rstate) : rstate :=
  match r with
  | RWait => RReady
  | _ => r
  end.

(** [read_event.notify()]. *)
Definition notify_read_event (w : wstate) : wstate :=
  match w with
  | WWait pd => WReady pd
  | _ => w
  end.

(** [write(pd)] from the point after the [if] to its return. *)
Definition write_tail (pd : Z) (c : chan) : chan :=
  {| q := write_body pd (q c);
     writer := WIdle;
     reader := notify_write_event (reader c);
     now := now c |}.

(** [write(pd)] from its entry to its first suspension or its return. *)
Definition write (pd : Z) (c : chan) : chan :=
  if buffer_size (q c) =? fifo_size (q c)
  then {| q := q c; writer := WWait pd; reader := reader c; now := now c |}
  else write_tail pd c.

(** [read(pd)] from the point after the [if] to its return. *)
Definition read_tail (c : chan) : Z * chan :=
  let r := read_body (q c) in
  (fst r, {| q := snd r;
             writer := notify_read_event (writer c);
             reader := RIdle;
             now := now c |}).

(** The first statement of [read(pd)], on the channel. *)
Definition stamped (c : chan) : chan :=
  {| q := read_stamp (now c) (q c);
     writer := writer c; reader := reader c; now := now c |}.

(** [read(pd)] from its entry to its first suspension or its return. *)
Definition read (c : chan) : option Z * chan :=
  let c := stamped c in
  if buffer_size (q c) =? 0
  then (None,
        {| q := q c; writer := writer c; reader := RWait; now := now c |})
  else let r := read_tail c in (Some (fst r), snd r).

(** What can happen to the channel: a thread enters a method ([pd] is the
    [uint32_t] argument of [write]), the scheduler resumes a thread that was
    notified, or simulated time moves on. *)
Inductive action : Type :=
| CallWrite (pd : Z)
| ResumeWrite
| CallRead
| ResumeRead
| CallReset
| Advance (t : Z).

(** One action; [None] when the action cannot happen in this state (the
    thread is not where the action needs it, or time would run backwards). *)
Definition exec (a : action) (c : chan) : option chan :=
  match a with
  | CallWrite pd =>
      match writer c with
      | WIdle => Some (write pd c)
      | _ => None
      end
  | ResumeWrite =>
      match writer c with
      | WReady pd => Some (write_tail pd c)
      | _ => None
      end
  | CallRead =>
      match reader c with
      | RIdle => Some (snd (read c))
      | _ => None
      end
  | ResumeRead =>
      match reader c with
      | RReady => Some (snd (read_tail c))
      | _ => None
      end
  | CallReset =>
      Some {| q := reset (q c);
              writer := writer c; reader := reader c; now := now c |}
  | Advance t =>
      if now c <=? t
      then Some {| q := q c;
                   writer := writer c; reader := reader c; now := t |}
      else None
  end.

Fixpoint run (acts : list action) (c : chan) : option chan :=
  match acts with
  | [] => Some c
  | a :: acts' =>
      match exec a c with
      | Some c' => run acts' c'
      | None => None
      end
  end.

(** Does action [a], taken in state [c], execute the storing part of
    [write]?  With which value? *)
Definition stores (a : action) (c : chan) : option Z :=
  match a, writer c with
  | CallWrite pd, WIdle =>
      if buffer_size (q c) =? fifo_size (q c) then None else Some pd
  | ResumeWrite, WReady pd => Some pd
  | _, _ => None
  end.

(** Does action [a], taken in state [c], execute the removing part of
    [read]? *)
Definition removes (a : action) (c : chan) : bool :=
  match a, reader c with
  | CallRead, RIdle => negb (buffer_size (q c) =? 0)
  | ResumeRead, RReady => true
  | _, _ => false
  end.

(** Gathers what [f] sees at each action of a run. *)
Fixpoint collect {A : Type} (f : action -> chan -> list A)
    (acts : list action) (c : chan) : list A :=
  match acts with
  | [] => []
  | a :: acts' =>
      match exec a c with
      | Some c' => f a c ++ collect f acts' c'
      | None => []
      end
  end.

(** The value stored by one action, if any. *)
Definition stored_by (a : action) (c : chan) : list Z :=
  match stores a c with Some pd => [pd] | None => [] end.

(** The value removed by one action, if any: what [read_body] returns. *)
Definition removed_by (a : action) (c : chan) : list Z :=
  if removes a c then [fst (read_body (q c))] else [].

(** The values stored by [write], in order. *)
Definition written : list action -> chan -> list Z := collect stored_by.

(** The values passed to [write], in call order. *)
Definition passed : list action -> chan -> list Z :=
  collect (fun a c => match a, writer c with
                      | CallWrite pd, WIdle => [pd]
                      | _, _ => []
                      end).

(** The value a suspended or notified writer still has to store. *)
Definition in_flight (w : wstate) : list Z :=
  match w with
  | WIdle => []
  | WWait pd | WReady pd => [pd]
  end.

(** The values returned by [read], in order. *)
Definition taken : list action -> chan -> list Z := collect removed_by.

(** The value of [buffer_size] immediately before each removal. *)
Definition occupancies : list action -> chan -> list Z :=
  collect (fun a c => if removes a c then [buffer_size (q c)] else []).

(** The simulated time at each removal. *)
Definition removal_times : list action -> chan -> list Z :=
  collect (fun a c => if removes a c then [now c] else []).

(** The simulated time at each entry into [read]. *)
Definition entry_times : list action -> chan -> list Z :=
  collect (fun a c => match a, reader c with
                      | CallRead, RIdle => [now c]
                      | _, _ => []
                      end).

(** No [write] or [read] is in progress. *)
Definition quiescent (c : chan) : bool :=
  match writer c, reader c with
  | WIdle, RIdle => true
  | _, _ => false
  end.

(** The precondition of [reset]: it is called only when no operation is in
    progress on the channel.  The other actions are unconstrained. *)
Definition permitted (a : action) (c : chan) : bool :=
  match a with
  | CallReset => quiescent c
  | _ => true
  end.

Fixpoint disciplined (acts : list action) (c : chan) : bool :=
  match acts with
  | [] => true
  | a :: acts' =>
      permitted a c &&
      match exec a c with
      | Some c' => disciplined acts' c'
      | None => true
      end
  end.

(** The elements held by the ring, oldest first: [buffer_size] cells from
    [rd_ptr] on, wrapping at [fifo_size]. *)
Definition contents (f : fifo) : list Z :=
  map (fun k => cell f ((rd_ptr f + Z.of_nat k) mod fifo_size f))
      (seq 0 (Z.to_nat (buffer_size f))).

(** The structural invariant of the ring. *)
Record bounds (f : fifo) : Prop := mk_bounds {
  bounds_count : 0 <= buffer_size f <= fifo_size f;
  bounds_head : 0 <= rd_ptr f < fifo_size f;
  bounds_tail : 0 <= wr_ptr f < fifo_size f
}.

(** A run of puts and takes only. *)
Definition put_take_only (acts : list action) : bool :=
  forallb (fun a => match a with CallReset => false | _ => true end) acts.

Definition sum_of (l : list Z) : Z := foldr Z.add 0 l.

Definition max_of (l : list Z) : Z := foldr Z.max 0 l.

(** The well-formedness of a channel state: the capacity fits a [uint32_t]
    and the array has that many cells, the ring's structural invariant holds,
    the write pointer is [buffer_size] cells ahead of the read pointer, and a
    suspended or notified thread finds the queue as its guard left it. *)
Record inv (c : chan) : Prop := mk_inv {
  inv_size : 1 <= fifo_size (q c) < U32.modulus;
  inv_len : Z.of_nat (length (data (q c))) = fifo_size (q c);
  inv_bounds : bounds (q c);
  inv_tail :
    wr_ptr (q c) = (rd_ptr (q c) + buffer_size (q c)) mod fifo_size (q c);
  inv_writer :
    match writer c with
    | WIdle => True
    | WWait _ => buffer_size (q c) = fifo_size (q c)
    | WReady _ => buffer_size (q c) < fifo_size (q c)
    end;
  inv_reader :
    match reader c with
    | RIdle => True
    | RWait => buffer_size (q c) = 0
    | RReady => 0 < buffer_size (q c)
    end
}.


End Chan.

(** ** The program: three threads under the cooperative scheduler *)

Module Model.

Import Fifo Chan.

Inductive pid : Type :=
| Producer
| Consumer
| Monitor.

Definition pid_eqb (a b : pid) : bool :=
  match a, b with
  | Producer, Producer | Consumer, Consumer | Monitor, Monitor => true
  | _, _ => false
  end.

(** Where [producer::main] stands: at the head of [while(true)], at the test
    of [while (--i >= 0)], suspended inside [out->write], suspended in
    [wait(1000, SC_NS)] until the given time, or returned. *)
Inductive ppc : Type :=
| P_Loop
| P_Burst
| P_InWrite
| P_Pace (t : Z)
| P_Done.

(** The locals of [producer::main].  [total_loop] and [i] are [int]s; they
    stay within [-19, 10000] and [-1, 20], far from the ends of [int]. *)
Record producer : Type := mk_producer {
  p_pc : ppc;
  total_loop : Z;
  p_i : Z;
  p_pd : Z
}.

(** Where [consumer::main] stands: at the head of [while (true)], suspended
    inside [in->read], or suspended in [wait(100, SC_NS)].  Its local [pd] is
    never used and is left out. *)
Inductive cpc : Type :=
| C_Loop
| C_InRead
| C_Pace (t : Z).

(** Where [top::monitor_thread] stands: at the test of the first [while],
    suspended in [wait(prod_done_sig.value_changed_event())], at the test of
    the second [while], suspended in [wait(100, SC_NS)], or returned. *)
Inductive mpc : Type :=
| M_Flag
| M_FlagWait
| M_Drain
| M_Poll (t : Z)
| M_Done.

(** The whole simulation.  [sig_cur] and [sig_new] are the current and the
    written value of [prod_done_sig]; [running] is the thread that holds the
    processor in the middle of an evaluation; [draws] counts the calls of
    [rand()]; [console] holds the times printed by the monitor's line. *)
Record sys : Type := mk_sys {
  ch : chan;
  prod : producer;
  cons : cpc;
  mon : mpc;
  sig_cur : bool;
  sig_new : bool;
  running : option pid;
  draws : nat;
  console : list Z
}.

(** The initial value of [total_loop]. *)
Definition quota : Z := 10000.

(** The elaborated design at time zero: every [SC_THREAD] is runnable,
    [done_o.initialize(false)] has run. *)
Definition boot (size : Z) : sys :=
  {| ch := init size;
     prod := mk_producer P_Loop quota 0 0;
     cons := C_Loop;
     mon := M_Flag;
     sig_cur := false;
     sig_new := false;
     running := None;
     draws := 0;
     console := [] |}.

(** [sc_main]: the capacity is 10, or [atoi(argv[1])] (here [arg]) converted
    to [uint32_t] when an argument is given, then clamped to [1, 100000]. *)
Definition sc_main (arg : option Z) : sys :=
  let size := match arg with Some a => U32.wrap a | None => 10 end in
  let size := if size <? 1 then 1 else size in
  let size := if 100000 <? size then 100000 else size in
  boot size.

Section Program.

(** [RAND_MAX] of the C library, and the value returned by the [n]-th call
    of [rand()]. *)
Variable RAND_MAX : Z.
Variable rand : nat -> Z.

(** [1 + uint32_t(19.0 * rand() / RAND_MAX)] for [rand() = r].  The product
    is exact in [double]; the quotient, when it is not an integer, is at
    least [1 / RAND_MAX] away from one, so rounding never moves it across an
    integer and the truncation yields the integer quotient. *)
Definition burst_length (r : Z) : Z := 1 + U32.wrap (19 * r / RAND_MAX).

(** The number of elements of the first [n] bursts. *)
Definition burst_sum (n : nat) : Z :=
  foldr Z.add 0 (map (fun k => burst_length (rand k)) (seq 0 n)).

Definition ready (p : pid) (s : sys) : bool :=
  match p with
  | Producer =>
      match p_pc (prod s) with
      | P_Loop | P_Burst => true
      | P_InWrite =>
          match writer (ch s) with WReady _ => true | _ => false end
      | P_Pace t => t <=? now (ch s)
      | P_Done => false
      end
  | Consumer =>
      match cons s with
      | C_Loop => true
      | C_InRead =>
          match reader (ch s) with RReady => true | _ => false end
      | C_Pace t => t <=? now (ch s)
      end
  | Monitor =>
      match mon s with
      | M_Flag | M_Drain => true
      | M_Poll t => t <=? now (ch s)
      | M_FlagWait | M_Done => false
      end
  end.

(** May thread [p] execute now?  A thread keeps the processor until it
    suspends; when nobody holds it, any runnable thread may be chosen. *)
Definition turn (p : pid) (s : sys) : bool :=
  match running s with
  | Some p' => pid_eqb p p'
  | None => ready p s
  end.

Definition with_prod (ch' : chan) (pr : producer) (r : option pid) (s : sys)
    : sys :=
  mk_sys ch' pr (cons s) (mon s) (sig_cur s) (sig_new s) r (draws s)
         (console s).

Definition with_cons (ch' : chan) (c : cpc) (r : option pid) (s : sys) : sys :=
  mk_sys ch' (prod s) c (mon s) (sig_cur s) (sig_new s) r (draws s)
         (console s).

Definition with_mon (m : mpc) (r : option pid) (out : list Z) (s : sys) : sys :=
  mk_sys (ch s) (prod s) (cons s) m (sig_cur s) (sig_new s) r (draws s)
         (console s ++ out).

(** One step of [producer::main]. *)
Definition producer_main (s : sys) : option sys :=
  if negb (turn Producer s) then None else
  let pr := prod s in
  match p_pc pr with
  | P_Loop =>
      let i := burst_length (rand (draws s)) in
      Some (mk_sys (ch s) (mk_producer P_Burst (total_loop pr) i 0)
                   (cons s) (mon s) (sig_cur s) (sig_new s)
                   (Some Producer) (S (draws s)) (console s))
  | P_Burst =>
      let i := p_i pr - 1 in
      if 0 <=? i then
        let pd := U32.wrap (p_pd pr + 1) in
        match exec (CallWrite pd) (ch s) with
        | Some ch' =>
            match writer ch' with
            | WIdle =>
                Some (with_prod ch'
                        (mk_producer P_Burst (total_loop pr - 1) i pd)
                        (Some Producer) s)
            | _ =>
                Some (with_prod ch'
                        (mk_producer P_InWrite (total_loop pr) i pd)
                        None s)
            end
        | None => None
        end
      else if total_loop pr <=? 0 then
        Some (mk_sys (ch s) (mk_producer P_Done (total_loop pr) i (p_pd pr))
                     (cons s) (mon s) (sig_cur s) true
                     None (draws s) (console s))
      else
        Some (with_prod (ch s)
                (mk_producer (P_Pace (now (ch s) + 1000)) (total_loop pr) i
                             (p_pd pr))
                None s)
  | P_InWrite =>
      match exec ResumeWrite (ch s) with
      | Some ch' =>
          Some (with_prod ch'
                  (mk_producer P_Burst (total_loop pr - 1) (p_i pr) (p_pd pr))
                  (Some Producer) s)
      | None => None
      end
  | P_Pace _ =>
      Some (with_prod (ch s)
              (mk_producer P_Loop (total_loop pr) (p_i pr) (p_pd pr))
              (Some Producer) s)
  | P_Done => None
  end.

(** One step of [consumer::main]. *)
Definition consumer_main (s : sys) : option sys :=
  if negb (turn Consumer s) then None else
  match cons s with
  | C_Loop =>
      match exec CallRead (ch s) with
      | Some ch' =>
          match reader ch' with
          | RIdle => Some (with_cons ch' (C_Pace (now ch' + 100)) None s)
          | _ => Some (with_cons ch' C_InRead None s)
          end
      | None => None
      end
  | C_InRead =>
      match exec ResumeRead (ch s) with
      | Some ch' => Some (with_cons ch' (C_Pace (now ch' + 100)) None s)
      | None => None
      end
  | C_Pace _ => Some (with_cons (ch s) C_Loop (Some Consumer) s)
  end.

(** One step of [top::monitor_thread]. *)
Definition monitor_thread (s : sys) : option sys :=
  if negb (turn Monitor s) then None else
  match mon s with
  | M_Flag =>
      if sig_cur s
      then Some (with_mon M_Drain (Some Monitor) [] s)
      else Some (with_mon M_FlagWait None [] s)
  | M_FlagWait => None
  | M_Drain =>
      if is_empty (q (ch s))
      then Some (with_mon M_Done None [now (ch s)] s)
      else Some (with_mon (M_Poll (now (ch s) + 100)) None [] s)
  | M_Poll _ => Some (with_mon M_Drain (Some Monitor) [] s)
  | M_Done => None
  end.

(** No thread holds the processor and none is runnable: the evaluation
    phase is over. *)
Definition settled (s : sys) : bool :=
  match running s with
  | Some _ => false
  | None =>
      negb (ready Producer s) && negb (ready Consumer s)
      && negb (ready Monitor s)
  end.

(** The update phase: a written value that differs from the current one
    becomes current, and the value-changed event wakes the monitor. *)
Definition update_phase (s : sys) : option sys :=
  if settled s && negb (Bool.eqb (sig_new s) (sig_cur s)) then
    Some (mk_sys (ch s) (prod s) (cons s)
                 (match mon s with M_FlagWait => M_Flag | m => m end)
                 (sig_new s) (sig_new s) None (draws s) (console s))
  else None.

(** The earliest pending timed wake-up. *)
Definition next_wake (s : sys) : option Z :=
  let ts :=
    match p_pc (prod s) with P_Pace t => [t] | _ => [] end ++
    match cons s with C_Pace t => [t] | _ => [] end ++
    match mon s with M_Poll t => [t] | _ => [] end in
  match ts with
  | [] => None
  | t :: ts' => Some (foldr Z.min t ts')
  end.

(** Time advances to the earliest timed wake-up when nothing else is left
    to do at the current time. *)
Definition advance_time (s : sys) : option sys :=
  if settled s && Bool.eqb (sig_new s) (sig_cur s) then
    match next_wake s with
    | Some t =>
        match exec (Advance t) (ch s) with
        | Some ch' =>
            Some (mk_sys ch' (prod s) (cons s) (mon s) (sig_cur s) (sig_new s)
                         None (draws s) (console s))
        | None => None
        end
    | None => None
    end
  else None.

(** The moves of the simulation. *)
Inductive step : sys -> sys -> Prop :=
| step_producer s s' : producer_main s = Some s' -> step s s'
| step_consumer s s' : consumer_main s = Some s' -> step s s'
| step_monitor s s' : monitor_thread s = Some s' -> step s s'
| step_update s s' : update_phase s = Some s' -> step s s'
| step_advance s s' : advance_time s = Some s' -> step s s'.

(** The states of the simulation started with capacity [size]. *)
Inductive reachable (size : Z) : sys -> Prop :=
| reachable_boot : reachable size (boot size)
| reachable_step s s' : reachable size s -> step s s' -> reachable size s'.

(** One scheduler that the moves allow: among the runnable threads the
    producer goes first, then the consumer, then the monitor. *)
Definition sched (s : sys) : option sys :=
  match producer_main s with
  | Some s' => Some s'
  | None =>
      match consumer_main s with
      | Some s' => Some s'
      | None =>
          match monitor_thread s with
          | Some s' => Some s'
          | None =>
              match update_phase s with
              | Some s' => Some s'
              | None => advance_time s
              end
          end
      end
  end.

(** [sc_start()]: runs until no activity is left (or the fuel is spent). *)
Fixpoint sc_start (fuel : nat) (s : sys) : sys :=
  match fuel with
  | O => s
  | S fuel' =>
      match sched s with
      | Some s' => sc_start fuel' s'
      | None => s
      end
  end.

(** The elements of the current burst that are still to be written. *)
Definition pending (pr : producer) : Z :=
  match p_pc pr with
  | P_Burst => p_i pr
  | P_InWrite => p_i pr + 1
  | _ => 0
  end.

(** What holds of the flag, the monitor and its output in every state: the
    flag is written only by a producer that has finished, becomes current
    only after it was written, and the monitor passes its first loop only
    on a raised flag and prints only on leaving its second loop. *)
Record mon_inv (s : sys) : Prop := mk_mon_inv {
  mi_new : sig_new s = true -> p_pc (prod s) = P_Done;
  mi_cur : sig_cur s = true -> sig_new s = true;
  mi_mon :
    match mon s with
    | M_Flag | M_FlagWait => console s = []
    | M_Drain | M_Poll _ => sig_cur s = true /\ console s = []
    | M_Done => sig_cur s = true /\ exists t, console s = [t]
    end
}.

(** The length of the burst drawn last. *)
Definition last_burst (s : sys) : Z :=
  burst_length (rand (Nat.pred (draws s))).

(** What holds of the channel and the producer in every state: the channel
    is well formed, each client is inside a blocking method exactly when the
    channel says so, every element written so far is either still in the
    queue or counted as read, the elements written and still to be written
    are those of the bursts drawn, and [total_loop] is positive between
    bursts and never further below 1 than the current burst is long. *)
Record sys_inv (s : sys) : Prop := mk_sys_inv {
  si_chan : inv (ch s);
  si_writer :
    match p_pc (prod s) with
    | P_InWrite => writer (ch s) <> WIdle
    | _ => writer (ch s) = WIdle
    end;
  si_reader :
    match cons s with
    | C_InRead => reader (ch s) <> RIdle
    | _ => reader (ch s) = RIdle
    end;
  si_read_count : 0 <= read_count (q (ch s));
  si_count :
    read_count (q (ch s)) + buffer_size (q (ch s))
    = quota - total_loop (prod s);
  si_sum : quota - total_loop (prod s) + pending (prod s) = burst_sum (draws s);
  si_burst :
    match p_pc (prod s) with
    | P_Loop | P_Pace _ => 1 <= total_loop (prod s)
    | P_Burst =>
        0 <= p_i (prod s) <= last_burst s
        /\ p_i (prod s) - last_burst s + 1 <= total_loop (prod s)
    | P_InWrite =>
        0 <= p_i (prod s) < last_burst s
        /\ p_i (prod s) - last_burst s + 2 <= total_loop (prod s)
    | P_Done => 1 - last_burst s <= total_loop (prod s) <= 0
    end
}.

End Program.

(** [RAND_MAX] of the GNU C library, and a random source that returns the
    same value at every call, for concrete runs. *)
Definition glibc_RAND_MAX : Z := 2147483647.

Definition always (r : Z) : nat -> Z := fun _ => r.

(** *** Further invariants of the simulation *)

(** What holds of the scheduler's bookkeeping in every state: a thread that
    holds the processor stands at a statement (not at a suspension), a
    producer that has returned has written the flag, and a monitor that waits
    for the flag has seen it lowered. *)
Record sched_inv (s : sys) : Prop := mk_sched_inv {
  sc_running :
    match running s with
    | Some Producer => p_pc (prod s) = P_Loop \/ p_pc (prod s) = P_Burst
    | Some Consumer => cons s = C_Loop
    | Some Monitor => mon s = M_Drain
    | None => True
    end;
  sc_done : p_pc (prod s) = P_Done -> sig_new s = true;
  sc_flag : mon s = M_FlagWait -> sig_cur s = false
}.

(** What holds of simulated time in every state: it is not negative, a timed
    wait ends neither in the past nor later than its delay from now, and
    [last_time] is not in the future. *)
Record clock_inv (s : sys) : Prop := mk_clock_inv {
  ck_now : 0 <= now (ch s);
  ck_last : 0 <= last_time (q (ch s)) <= now (ch s);
  ck_prod :
    match p_pc (prod s) with
    | P_Pace t => now (ch s) <= t <= now (ch s) + 1000
    | _ => True
    end;
  ck_cons :
    match cons s with
    | C_Pace t => now (ch s) <= t <= now (ch s) + 100
    | _ => True
    end;
  ck_mon :
    match mon s with
    | M_Poll t => now (ch s) <= t <= now (ch s) + 100
    | _ => True
    end
}.

(** What holds of the two paced loops in every state: 100 ns lie between
    two entries of the consumer into [read], and 1000 ns between two draws
    of a burst length. *)
Record pace_inv (s : sys) : Prop := mk_pace_inv {
  pa_taken : 100 * (read_count (q (ch s)) - 1) <= last_time (q (ch s));
  pa_cons :
    match cons s with
    | C_Loop => 100 * read_count (q (ch s)) <= now (ch s)
    | C_InRead => 100 * read_count (q (ch s)) <= last_time (q (ch s))
    | C_Pace t => 100 * read_count (q (ch s)) <= t
    end;
  pa_prod :
    match p_pc (prod s) with
    | P_Loop => 1000 * Z.of_nat (draws s) <= now (ch s)
    | P_Pace t => 1000 * Z.of_nat (draws s) <= t
    | _ => 1000 * (Z.of_nat (draws s) - 1) <= now (ch s)
    end
}.

(** What holds of the statistics fields in every state: the fill-depth
    accumulator lies between the number of takes and that number times the
    peak, and the peak is at most the capacity (and small). *)
Record stats_inv (s : sys) : Prop := mk_stats_inv {
  st_low : read_count (q (ch s)) <= average_acc (q (ch s));
  st_high :
    average_acc (q (ch s)) <= read_count (q (ch s)) * max_buffered (q (ch s));
  st_max : 0 <= max_buffered (q (ch s)) <= fifo_size (q (ch s));
  st_fit : max_buffered (q (ch s)) <= quota + 19;
  st_some : 1 <= read_count (q (ch s)) -> 1 <= max_buffered (q (ch s))
}.

Section Values.

Variable RAND_MAX : Z.
Variable rand : nat -> Z.

(** What holds of the values in every state: every value held by the ring
    or by a suspended [write] is a position in a burst, and inside a burst
    [pd] counts the elements written and [i] those still to write. *)
Record value_inv (s : sys) : Prop := mk_value_inv {
  va_vals :
    Forall (fun v => 1 <= v <= 20)
           (contents (q (ch s)) ++ in_flight (writer (ch s)));
  va_pd :
    match p_pc (prod s) with
    | P_Burst | P_InWrite =>
        0 <= p_pd (prod s)
        /\ p_pd (prod s) + p_i (prod s) = last_burst RAND_MAX rand s
    | _ => True
    end
}.

End Values.


(** The states reached from the start in exactly [n] moves. *)
Inductive reachable_in (RAND_MAX : Z) (rand : nat -> Z) (size : Z)
    : nat -> sys -> Prop :=
| reachable_in_boot : reachable_in RAND_MAX rand size 0 (boot size)
| reachable_in_step n s s' :
    reachable_in RAND_MAX rand size n s -> step RAND_MAX rand s s' ->
    reachable_in RAND_MAX rand size (S n) s'.

(** *** A bound on the moves still to come

    Every move of the simulation lowers [measure] by at least 100.  The
    measure charges each thread for the moves it can still make, and each
    timed wait that has not expired for the advance of time that ends it. *)

(** A timed wait until [t] that has not expired. *)
Definition unexpired (now t : Z) : Z := if now <? t then 1 else 0.

(** The moves of the producer for the bursts that follow the current one,
    when [x] elements of the quota are left after it: a burst of [L]
    elements takes at most [2 * L + 4] moves, and the bursts to come have at
    most [x + 19] elements in at most [x] bursts. *)
Definition bursts_cost (x : Z) : Z := if x <=? 0 then 0 else 6 * x + 38.

Definition phi_prod (s : sys) : Z :=
  let pr := prod s in
  match p_pc pr with
  | P_Loop => bursts_cost (total_loop pr)
  | P_Burst => 2 * p_i pr + 3 + bursts_cost (total_loop pr - p_i pr)
  | P_InWrite => 2 * p_i pr + 4 + bursts_cost (total_loop pr - 1 - p_i pr)
  | P_Pace t => bursts_cost (total_loop pr) + 1 + unexpired (now (ch s)) t
  | P_Done => 0
  end.

(** An upper bound on the elements the producer will still write. *)
Definition to_write (pr : producer) : Z :=
  match p_pc pr with
  | P_Loop | P_Pace _ => total_loop pr + 19
  | P_Burst =>
      if total_loop pr - p_i pr <=? 0 then p_i pr else total_loop pr + 19
  | P_InWrite =>
      if total_loop pr - 1 - p_i pr <=? 0
      then p_i pr + 1 else total_loop pr + 19
  | P_Done => 0
  end.

(** An upper bound on the elements the consumer will still take. *)
Definition to_take (s : sys) : Z :=
  buffer_size (q (ch s)) + to_write (prod s).

Definition phi_cons (s : sys) : Z :=
  4 * to_take s
  + match cons s with
    | C_Loop => 2
    | C_InRead => 1
    | C_Pace t => 3 + unexpired (now (ch s)) t
    end.

(** The time of the consumer's next entry into [read], if it goes on. *)
Definition next_take (s : sys) : Z :=
  match cons s with
  | C_Pace t => t
  | _ => now (ch s)
  end.

(** Three moves for each period of 100 ns between the monitor's test at
    time [e] and the time by which the consumer has emptied the queue. *)
Definition drain_cost (e : Z) (s : sys) : Z :=
  if buffer_size (q (ch s)) =? 0 then 0
  else 3 * Z.max 0 (next_take s + 100 * buffer_size (q (ch s)) - e).

Definition phi_mon (s : sys) : Z :=
  match mon s with
  | M_Flag => 300 * to_take s + 500 + (if sig_cur s then 0 else 100)
  | M_FlagWait => 300 * to_take s + 500
  | M_Drain => 100 + drain_cost (now (ch s)) s
  | M_Poll t => 200 + 100 * unexpired (now (ch s)) t + drain_cost t s
  | M_Done => 0
  end.

Definition measure (s : sys) : Z :=
  100 * (phi_prod s + phi_cons s + (if sig_cur s then 0 else 1)) + phi_mon s.

(** The measure of the initial state, in moves. *)
Definition max_moves : nat := Z.to_nat 130180.

End Model.

(** ** Proofs about the channel *)

Module ChanProofs.

Import Fifo Chan.

#[local] Arguments read_body : simpl never.
#[local] Arguments write_body : simpl never.
#[local] Arguments compute_status : simpl never.
#[local] Arguments contents : simpl never.
#[local] Arguments U32.wrap : simpl never.

Lemma wrap_small z : 0 <= z < U32.modulus -> U32.wrap z = z.
Proof. intros H. unfold U32.wrap. apply Z.mod_small. exact H. Qed.

Lemma modulus_val : U32.modulus = 4294967296.
Proof. reflexivity. Qed.

(** *** Rounding to [double] *)

Lemma exponent_lower n d :
  0 < n -> 0 < d -> 0 <= exponent n d -> d * 2 ^ exponent n d <= n.
Proof.
  intros Hn Hd. unfold exponent.
  pose proof (Z.log2_spec n Hn) as [Hn1 _].
  pose proof (Z.log2_spec d Hd) as [_ Hd2].
  pose proof (Z.log2_nonneg n). pose proof (Z.log2_nonneg d).
  set (e := Z.log2 n - Z.log2 d).
  destruct (Z.ltb_spec (n * 2 ^ Z.max 0 (- e)) (d * 2 ^ Z.max 0 e))
    as [Hlt|Hge]; intros He.
  - assert (Hpow : 2 ^ Z.succ (Z.log2 d) * 2 ^ (e - 1) = 2 ^ Z.log2 n).
    { rewrite <- Z.pow_add_r by lia. f_equal. unfold e. lia. }
    assert (0 < 2 ^ (e - 1)) by (apply Z.pow_pos_nonneg; lia).
    nia.
  - replace (Z.max 0 e) with e in Hge by lia.
    replace (Z.max 0 (- e)) with 0 in Hge by lia.
    rewrite Z.pow_0_r in Hge. lia.
Qed.

Lemma round_half_even_between n d lo hi :
  0 < d -> lo * d <= n <= hi * d ->
  lo <= round_half_even n d <= hi.
Proof.
  intros Hd Hn. unfold round_half_even.
  pose proof (Z.div_mod n d ltac:(lia)) as Hdm.
  pose proof (Z.mod_pos_bound n d Hd) as Hr.
  assert (lo <= n / d) by nia.
  assert (n / d <= hi) by nia.
  assert (0 < n mod d -> n / d < hi) by nia.
  destruct (Z.ltb_spec (2 * (n mod d)) d); [lia|].
  destruct (Z.ltb_spec d (2 * (n mod d))); [lia|].
  destruct (Z.even (n / d)); lia.
Qed.

(** Rounding keeps a rational between two integers that enclose it, as
    long as they are [double]s themselves. *)
Lemma binary64_between (x : Q) (lo hi : Z) :
  1 <= lo -> hi < 2 ^ 53 ->
  (inject_Z lo <= x)%Q -> (x <= inject_Z hi)%Q ->
  (inject_Z lo <= binary64 x)%Q /\ (binary64 x <= inject_Z hi)%Q.
Proof.
  destruct x as [n d]. intros Hlo Hhi Hl Hh.
  unfold Qle in Hl, Hh. cbn [Qnum Qden inject_Z] in Hl, Hh.
  rewrite !Z.mul_1_r in Hl, Hh.
  assert (Hn : 0 < n) by nia.
  unfold binary64. cbn [Qnum Qden].
  destruct (Z.eqb_spec n 0) as [|_]; [lia|].
  rewrite Z.abs_eq by lia. rewrite Z.sgn_pos by lia.
  set (e := exponent n (Z.pos d)).
  assert (He : e <= 52).
  { destruct (Z_le_gt_dec e 52) as [|Hgt]; [done|].
    pose proof (exponent_lower n (Z.pos d) Hn ltac:(lia) ltac:(fold e; lia))
      as Hx. fold e in Hx.
    assert (2 ^ 53 <= 2 ^ e) by (apply Z.pow_le_mono_r; lia).
    nia. }
  rewrite (Z.max_r 0 (52 - e)) by lia.
  rewrite (Z.max_l 0 (- (52 - e))) by lia.
  rewrite Z.pow_0_r, !Z.mul_1_r, Z.mul_1_l.
  assert (Hp : 0 < 2 ^ (52 - e)) by (apply Z.pow_pos_nonneg; lia).
  destruct (round_half_even_between (n * 2 ^ (52 - e)) (Z.pos d)
              (lo * 2 ^ (52 - e)) (hi * 2 ^ (52 - e)))
    as [Hm1 Hm2]; [lia|nia|].
  assert (Hq : (0 < inject_Z (2 ^ (52 - e)))%Q)
    by (unfold Qlt; cbn; lia).
  split.
  - apply Qle_shift_div_l; [done|].
    unfold Qle, Qmult. cbn [Qnum Qden inject_Z]. lia.
  - apply Qle_shift_div_r; [done|].
    unfold Qle, Qmult. cbn [Qnum Qden inject_Z]. lia.
Qed.

(** The destructor's report is defined as soon as one element was taken. *)
Lemma dtor_defined f :
  read_count f <> 0 ->
  exists per,
    dtor f
    = Some (mk_report (fifo_size f)
              (binary64 (inject_Z (average_acc f) / inject_Z (read_count f)))
              per (read_count f) (last_time f)).
Proof.
  intros Hnz. unfold dtor, divide, sc_time_div.
  destruct (Z.eqb_spec (read_count f) 0); [done|].
  eexists. reflexivity.
Qed.

(** Splits a conjunction into its parts, and nothing else. *)
Ltac conjs := repeat match goal with |- _ /\ _ => split end.

(** Reads [c' := x] off [H : Some x = Some c'] without reducing [x]. *)
Ltac got H :=
  match type of H with
  | Some ?x = Some ?y => assert (y = x) as -> by congruence; clear H
  end.

(** [write_body] spelled out. *)
Lemma write_body_eq pd f :
  write_body pd f =
  mk_fifo (<[Z.to_nat (wr_ptr f) := pd]> (data f)) (fifo_size f)
    (if U32.wrap (wr_ptr f + 1) =? fifo_size f
     then 0 else U32.wrap (wr_ptr f + 1))
    (rd_ptr f)
    (U32.wrap (buffer_size f + 1))
    (read_count f) (max_buffered f) (average_acc f) (last_time f).
Proof. reflexivity. Qed.

(** [read_body] spelled out: the ring fields move, the statistics are those
    of [compute_status], nothing else changes. *)
Lemma read_body_eq f :
  read_body f =
  (cell f (rd_ptr f),
   mk_fifo (data f) (fifo_size f) (wr_ptr f)
     (if U32.wrap (rd_ptr f + 1) =? fifo_size f
      then 0 else U32.wrap (rd_ptr f + 1))
     (U32.wrap (buffer_size f - 1))
     (U32.wrap (read_count f + 1))
     (Z.max (max_buffered f) (buffer_size f))
     (U32.wrap (average_acc f + buffer_size f))
     (last_time f)).
Proof.
  unfold read_body, compute_status, cell. cbn.
  destruct (Z.ltb_spec (max_buffered f) (buffer_size f)); cbn.
  - by rewrite Z.max_r by lia.
  - by rewrite Z.max_l by lia.
Qed.

Lemma inv_init size : 1 <= size < U32.modulus -> inv (init size).
Proof.
  intros H. split; simpl; try done.
  - rewrite length_replicate. lia.
  - split; simpl; lia.
Qed.

(** The pointer after [p++] and the wrap test, for a pointer in range. *)
Lemma advance_ptr n p :
  1 <= n < U32.modulus -> 0 <= p < n ->
  (if U32.wrap (p + 1) =? n then 0 else U32.wrap (p + 1)) = (p + 1) mod n.
Proof.
  intros Hn Hp. rewrite wrap_small by lia.
  destruct (Z.eqb_spec (p + 1) n) as [->|Hne].
  - rewrite Z.mod_same; lia.
  - rewrite Z.mod_small; lia.
Qed.

Lemma write_tail_inv pd c :
  inv c -> buffer_size (q c) < fifo_size (q c) ->
  match writer c with WWait _ => False | _ => True end ->
  inv (write_tail pd c).
Proof.
  intros [Hs Hl [Hc Hh Ht] Htl Hw Hr] Hroom Hnw.
  pose proof modulus_val as Hm.
  assert (Hb : U32.wrap (buffer_size (q c) + 1) = buffer_size (q c) + 1)
    by (apply wrap_small; lia).
  assert (Hp := advance_ptr (fifo_size (q c)) (wr_ptr (q c)) Hs Ht).
  split; simpl.
  - exact Hs.
  - rewrite length_insert. exact Hl.
  - split; simpl.
    + rewrite Hb. lia.
    + exact Hh.
    + rewrite Hp. apply Z.mod_pos_bound. lia.
  - rewrite Hp, Hb, Htl.
    rewrite Zplus_mod_idemp_l. f_equal. lia.
  - exact I.
  - rewrite Hb. destruct (reader c); simpl; lia.
Qed.

Lemma read_tail_inv c :
  inv c -> 0 < buffer_size (q c) ->
  match reader c with RWait => False | _ => True end ->
  inv (snd (read_tail c)).
Proof.
  intros [Hs Hl [Hc Hh Ht] Htl Hw Hr] Hsome Hnr.
  pose proof modulus_val as Hm.
  assert (Hb : U32.wrap (buffer_size (q c) - 1) = buffer_size (q c) - 1)
    by (apply wrap_small; lia).
  assert (Hp := advance_ptr (fifo_size (q c)) (rd_ptr (q c)) Hs Hh).
  unfold read_tail. rewrite read_body_eq. cbn [fst snd].
  split; cbn.
  - exact Hs.
  - exact Hl.
  - split; cbn.
    + rewrite Hb. lia.
    + rewrite Hp. apply Z.mod_pos_bound. lia.
    + exact Ht.
  - rewrite Hp, Hb, Htl.
    rewrite Zplus_mod_idemp_l. f_equal. lia.
  - rewrite Hb. destruct (writer c); cbn in *; lia.
  - exact I.
Qed.

Lemma exec_inv a c c' :
  inv c -> permitted a c = true -> exec a c = Some c' -> inv c'.
Proof.
  intros Hinv Hperm Hexec.
  destruct a; unfold exec in Hexec.
  - (* CallWrite *)
    destruct (writer c) eqn:Hw; try discriminate.
    got Hexec. unfold write.
    destruct (Z.eqb_spec (buffer_size (q c)) (fifo_size (q c))) as [Hfull|Hroom].
    + destruct Hinv. split; simpl; try done.
    + apply write_tail_inv; [done| |by rewrite Hw].
      destruct Hinv as [_ _ [? _ _] _ _ _]. lia.
  - (* ResumeWrite *)
    destruct (writer c) eqn:Hw; try discriminate.
    got Hexec.
    apply write_tail_inv; [done| |by rewrite Hw].
    destruct Hinv as [_ _ _ _ Hwr _]. by rewrite Hw in Hwr.
  - (* CallRead *)
    destruct (reader c) eqn:Hr; try discriminate.
    got Hexec.
    assert (Hinv1 : inv (stamped c)).
    { destruct Hinv as [? ? [? ? ?] ? ? ?]. split; simpl; try done. }
    unfold read.
    destruct (Z.eqb_spec (buffer_size (q (stamped c))) 0) as [Hempty|Hsome].
    + destruct Hinv1 as [? ? [? ? ?] ? ? ?]. split; simpl; try done.
    + apply read_tail_inv; [done| |simpl; by rewrite Hr].
      destruct Hinv1 as [_ _ [? _ _] _ _ _]. lia.
  - (* ResumeRead *)
    destruct (reader c) eqn:Hr; try discriminate.
    got Hexec.
    apply read_tail_inv; [done| |by rewrite Hr].
    destruct Hinv as [_ _ _ _ _ Hrd]. by rewrite Hr in Hrd.
  - (* CallReset *)
    got Hexec. simpl in Hperm. unfold quiescent in Hperm.
    destruct (writer c) eqn:Hw; try discriminate.
    destruct (reader c) eqn:Hr; try discriminate.
    destruct Hinv as [? ? [? ? ?] ? ? ?].
    split; simpl; rewrite ?Hw, ?Hr; try done.
    split; simpl; lia.
  - (* Advance *)
    destruct (now c <=? t); try discriminate.
    got Hexec.
    destruct Hinv. split; simpl; done.
Qed.

Lemma run_inv acts : forall c c',
  inv c -> disciplined acts c = true -> run acts c = Some c' -> inv c'.
Proof.
  induction acts as [|a acts IH]; intros c c' Hinv Hd Hrun; simpl in *.
  - by injection Hrun as <-.
  - apply andb_true_iff in Hd as [Hp Hd].
    destruct (exec a c) as [c1|] eqn:He; [|discriminate].
    eapply IH; [|exact Hd|exact Hrun].
    eapply exec_inv; eauto.
Qed.


(** *** The ring holds the elements in arrival order *)

Lemma ring_slots_differ n rd k bs :
  1 <= n -> 0 <= k < bs -> bs < n -> (rd + k) mod n <> (rd + bs) mod n.
Proof.
  intros Hn Hk Hbs Heq.
  assert (H : ((rd + bs) - (rd + k)) mod n = 0).
  { rewrite Zminus_mod, Heq, Z.sub_diag. apply Z.mod_0_l. lia. }
  replace (rd + bs - (rd + k)) with (bs - k) in H by lia.
  rewrite Z.mod_small in H; lia.
Qed.

Lemma contents_write pd f :
  1 <= fifo_size f < U32.modulus ->
  Z.of_nat (length (data f)) = fifo_size f ->
  bounds f ->
  wr_ptr f = (rd_ptr f + buffer_size f) mod fifo_size f ->
  buffer_size f < fifo_size f ->
  contents (write_body pd f) = contents f ++ [pd].
Proof.
  intros Hs Hl [Hc Hh Ht] Htl Hroom.
  pose proof modulus_val as Hm.
  unfold contents, write_body, cell; simpl.
  rewrite wrap_small by lia.
  replace (Z.to_nat (buffer_size f + 1)) with (S (Z.to_nat (buffer_size f)))
    by lia.
  rewrite seq_S, map_app; simpl. f_equal.
  - apply map_ext_in. intros k Hk. apply in_seq in Hk.
    rewrite list_lookup_insert_ne; [done|].
    intros Heq. apply Z2Nat.inj in Heq.
    + rewrite Htl in Heq. symmetry in Heq. revert Heq.
      apply ring_slots_differ; lia.
    + lia.
    + apply Z.mod_pos_bound. lia.
  - rewrite Z2Nat.id by lia. rewrite <- Htl.
    rewrite list_lookup_insert_eq by lia. done.
Qed.

Lemma read_body_value t f : fst (read_body (read_stamp t f)) = fst (read_body f).
Proof. by rewrite !read_body_eq. Qed.

Lemma contents_stamp t f : contents (read_stamp t f) = contents f.
Proof. reflexivity. Qed.

Lemma contents_read f :
  1 <= fifo_size f < U32.modulus ->
  bounds f ->
  0 < buffer_size f ->
  contents f = fst (read_body f) :: contents (snd (read_body f)).
Proof.
  intros Hs [Hc Hh Ht] Hsome.
  pose proof modulus_val as Hm.
  assert (Hp := advance_ptr (fifo_size f) (rd_ptr f) Hs Hh).
  rewrite read_body_eq. unfold contents, cell. cbn.
  rewrite (wrap_small (buffer_size f - 1)) by lia.
  rewrite Hp.
  replace (Z.to_nat (buffer_size f)) with (S (Z.to_nat (buffer_size f - 1)))
    at 1 by lia.
  cbn [seq map]. f_equal.
  - by rewrite Z.add_0_r, Z.mod_small by lia.
  - rewrite <- seq_shift, map_map. apply map_ext. intros k.
    rewrite Zplus_mod_idemp_l. do 4 f_equal. lia.
Qed.

Lemma exec_contents a c c' :
  inv c -> a <> CallReset -> exec a c = Some c' ->
  contents (q c) ++ stored_by a c = removed_by a c ++ contents (q c').
Proof.
  intros Hinv Hnr Hexec.
  destruct Hinv as [Hs Hl Hb Htl Hw Hr].
  unfold stored_by, removed_by, stores, removes.
  destruct a; simpl in Hexec; try done.
  - (* CallWrite *)
    destruct (writer c) eqn:Ew; try discriminate.
    injection Hexec as <-. unfold write.
    destruct (Z.eqb_spec (buffer_size (q c)) (fifo_size (q c))) as [Hfull|Hroom].
    + simpl. by rewrite app_nil_r.
    + simpl. symmetry. apply contents_write; try done.
      destruct Hb; lia.
  - (* ResumeWrite *)
    destruct (writer c) eqn:Ew; try discriminate.
    injection Hexec as <-. simpl. symmetry. by apply contents_write.
  - (* CallRead *)
    destruct (reader c) eqn:Er; try discriminate.
    injection Hexec as <-. unfold read.
    change (buffer_size (q (stamped c))) with (buffer_size (q c)).
    destruct (Z.eqb_spec (buffer_size (q c)) 0) as [Hempty|Hsome]; cbn.
    + by rewrite app_nil_r.
    + rewrite app_nil_r, <- (read_body_value (now c)).
      rewrite <- (contents_stamp (now c)).
      destruct Hb as [Hb1 Hb2 Hb3].
      apply contents_read; [done|by split|cbn; lia].
  - (* ResumeRead *)
    destruct (reader c) eqn:Er; try discriminate.
    injection Hexec as <-. simpl. rewrite app_nil_r.
    by apply contents_read.
  - (* Advance *)
    destruct (now c <=? t); try discriminate.
    injection Hexec as <-. simpl. by rewrite app_nil_r.
Qed.

Lemma put_take_only_disciplined acts : forall c,
  put_take_only acts = true -> disciplined acts c = true.
Proof.
  induction acts as [|a acts IH]; intros c H; simpl in *; [done|].
  apply andb_true_iff in H as [Ha H].
  apply andb_true_iff; split.
  - by destruct a.
  - destruct (exec a c); [by apply IH|done].
Qed.

Lemma run_contents acts : forall c c',
  inv c -> put_take_only acts = true -> run acts c = Some c' ->
  contents (q c) ++ written acts c = taken acts c ++ contents (q c').
Proof.
  induction acts as [|a acts IH]; intros c c' Hinv Hpt Hrun.
  - simpl in *. injection Hrun as <-. by rewrite app_nil_r.
  - simpl in Hpt. apply andb_true_iff in Hpt as [Ha Hpt].
    unfold written, taken. simpl in *.
    destruct (exec a c) as [c1|] eqn:He; [|discriminate].
    assert (Hne : a <> CallReset) by (by destruct a).
    assert (Hinv1 : inv c1).
    { eapply exec_inv; eauto. by destruct a. }
    pose proof (exec_contents a c c1 Hinv Hne He) as H1.
    pose proof (IH c1 c' Hinv1 Hpt Hrun) as H2.
    unfold written, taken in H2.
    rewrite app_assoc, H1, <- !app_assoc. by rewrite H2.
Qed.

Lemma contents_length f : length (contents f) = Z.to_nat (buffer_size f).
Proof. unfold contents. by rewrite length_map, length_seq. Qed.


(** *** The statistics *)

Lemma exec_count_nonneg a c c' :
  exec a c = Some c' -> 0 <= buffer_size (q c) -> 0 <= buffer_size (q c').
Proof.
  assert (Hw : forall z, 0 <= U32.wrap z)
    by (intros z; unfold U32.wrap; apply Z.mod_pos_bound; reflexivity).
  intros Hexec Hpos.
  destruct a; unfold exec in Hexec.
  - destruct (writer c); try discriminate. got Hexec.
    unfold write. destruct (_ =? _); [done|]. apply Hw.
  - destruct (writer c); try discriminate. got Hexec. apply Hw.
  - destruct (reader c); try discriminate. got Hexec.
    unfold read. destruct (_ =? _); [done|].
    unfold read_tail. rewrite read_body_eq. apply Hw.
  - destruct (reader c); try discriminate. got Hexec.
    unfold read_tail. rewrite read_body_eq. apply Hw.
  - got Hexec. done.
  - destruct (now c <=? t); try discriminate. by got Hexec.
Qed.

(** What one action does to the three statistics fields. *)
Lemma exec_stats a c c' :
  exec a c = Some c' ->
  if removes a c then
    read_count (q c') = U32.wrap (read_count (q c) + 1) /\
    average_acc (q c') = U32.wrap (average_acc (q c) + buffer_size (q c)) /\
    max_buffered (q c') = Z.max (max_buffered (q c)) (buffer_size (q c))
  else
    read_count (q c') = read_count (q c) /\
    average_acc (q c') = average_acc (q c) /\
    max_buffered (q c') = max_buffered (q c).
Proof.
  intros Hexec. unfold removes.
  destruct a; unfold exec in Hexec.
  - destruct (writer c), (reader c); try discriminate;
      got Hexec; unfold write; by destruct (_ =? _).
  - destruct (writer c), (reader c); try discriminate;
      by got Hexec.
  - destruct (reader c); try discriminate. got Hexec.
    unfold read. change (buffer_size (q (stamped c))) with (buffer_size (q c)).
    destruct (buffer_size (q c) =? 0); [done|].
    unfold read_tail. by rewrite read_body_eq.
  - destruct (reader c); try discriminate. got Hexec.
    unfold read_tail. by rewrite read_body_eq.
  - got Hexec. by destruct (reader c).
  - destruct (now c <=? t); try discriminate. got Hexec.
    by destruct (reader c).
Qed.

Lemma sum_of_nonneg l : Forall (fun o => 0 <= o) l -> 0 <= sum_of l.
Proof. induction 1; simpl; lia. Qed.

Lemma max_of_nonneg l : 0 <= max_of l.
Proof. induction l as [|x l IH]; unfold max_of in *; cbn; lia. Qed.

Lemma occupancies_nonneg acts : forall c,
  0 <= buffer_size (q c) -> Forall (fun o => 0 <= o) (occupancies acts c).
Proof.
  induction acts as [|a acts IH]; intros c Hpos; unfold occupancies; simpl.
  - constructor.
  - destruct (exec a c) as [c1|] eqn:He; [|constructor].
    apply Forall_app; split.
    + destruct (removes a c); repeat constructor. exact Hpos.
    + apply IH. eapply exec_count_nonneg; eauto.
Qed.

Lemma run_stats acts : forall c c',
  run acts c = Some c' ->
  0 <= buffer_size (q c) ->
  0 <= read_count (q c) -> 0 <= average_acc (q c) ->
  0 <= max_buffered (q c) ->
  read_count (q c) + Z.of_nat (length (occupancies acts c)) < U32.modulus ->
  average_acc (q c) + sum_of (occupancies acts c) < U32.modulus ->
  read_count (q c') = read_count (q c) + Z.of_nat (length (occupancies acts c))
  /\ average_acc (q c') = average_acc (q c) + sum_of (occupancies acts c)
  /\ max_buffered (q c') =
       Z.max (max_buffered (q c)) (max_of (occupancies acts c)).
Proof.
  induction acts as [|a acts IH]; intros c c' Hrun Hb Hrc Hacc Hmx Hk Hsum.
  - simpl in *. injection Hrun as <-. unfold max_of, sum_of. simpl.
    repeat split; lia.
  - unfold occupancies in *. simpl in *.
    destruct (exec a c) as [c1|] eqn:He; [|discriminate].
    pose proof (exec_stats a c c1 He) as Hst.
    pose proof (exec_count_nonneg a c c1 He Hb) as Hb1.
    pose proof (occupancies_nonneg acts c1 Hb1) as Hnn.
    apply sum_of_nonneg in Hnn. unfold occupancies in Hnn.
    destruct (removes a c); simpl in *.
    + destruct Hst as (H1 & H2 & H3).
      rewrite wrap_small in H1 by lia. rewrite wrap_small in H2 by lia.
      destruct (IH c1 c' Hrun Hb1) as (I1 & I2 & I3); try lia.
    + destruct Hst as (H1 & H2 & H3).
      destruct (IH c1 c' Hrun Hb1) as (I1 & I2 & I3); try lia.
Qed.


(** The capacity never changes. *)
Lemma exec_fifo_size a c c' :
  exec a c = Some c' -> fifo_size (q c') = fifo_size (q c).
Proof.
  intros Hexec. destruct a; unfold exec in Hexec.
  - destruct (writer c); try discriminate. got Hexec.
    unfold write. by destruct (_ =? _).
  - destruct (writer c); try discriminate. by got Hexec.
  - destruct (reader c); try discriminate. got Hexec.
    unfold read. destruct (_ =? _); [done|].
    unfold read_tail. cbn [snd q]. by rewrite read_body_eq.
  - destruct (reader c); try discriminate. got Hexec.
    unfold read_tail. cbn [snd q]. by rewrite read_body_eq.
  - by got Hexec.
  - destruct (now c <=? t); try discriminate. by got Hexec.
Qed.

Lemma run_fifo_size acts : forall c c',
  run acts c = Some c' -> fifo_size (q c') = fifo_size (q c).
Proof.
  induction acts as [|a acts IH]; intros c c' Hrun; simpl in Hrun.
  - by injection Hrun as <-.
  - destruct (exec a c) as [c1|] eqn:He; [|discriminate].
    rewrite (IH c1 c' Hrun). by eapply exec_fifo_size.
Qed.

(** In a well-formed state a removal finds at least the element it removes
    and at most a full queue. *)
Lemma removes_occupancy a c :
  inv c -> removes a c = true ->
  1 <= buffer_size (q c) <= fifo_size (q c).
Proof.
  intros [_ _ [Hc _ _] _ _ Hr] Hrem. unfold removes in Hrem.
  destruct a; try discriminate; destruct (reader c); try discriminate.
  - apply negb_true_iff, Z.eqb_neq in Hrem. lia.
  - lia.
Qed.

Lemma run_occupancy_range acts : forall c,
  inv c -> disciplined acts c = true ->
  Forall (fun o => 1 <= o <= fifo_size (q c)) (occupancies acts c).
Proof.
  induction acts as [|a acts IH]; intros c Hinv Hd; unfold occupancies.
  - constructor.
  - simpl in *. apply andb_true_iff in Hd as [Hp Hd].
    destruct (exec a c) as [c1|] eqn:He; [|constructor].
    apply Forall_app; split.
    + destruct (removes a c) eqn:Hrem; repeat constructor;
        by apply (removes_occupancy a).
    + rewrite <- (exec_fifo_size a c c1 He).
      apply IH; [by eapply exec_inv|done].
Qed.

(** *** The time stamp *)

Lemma exec_last_time a c c' :
  exec a c = Some c' ->
  last_time (q c') =
  match a, reader c with
  | CallRead, RIdle => now c
  | _, _ => last_time (q c)
  end.
Proof.
  intros Hexec.
  destruct a; unfold exec in Hexec.
  - destruct (writer c); try discriminate. got Hexec.
    unfold write. by destruct (_ =? _).
  - destruct (writer c); try discriminate. by got Hexec.
  - destruct (reader c); try discriminate. got Hexec.
    unfold read. destruct (_ =? _); [done|].
    unfold read_tail. by rewrite read_body_eq.
  - destruct (reader c); try discriminate. got Hexec.
    unfold read_tail. by rewrite read_body_eq.
  - by got Hexec.
  - destruct (now c <=? t); try discriminate. by got Hexec.
Qed.

Lemma run_last_time acts : forall c c',
  run acts c = Some c' ->
  last_time (q c') = default (last_time (q c)) (last (entry_times acts c)).
Proof.
  induction acts as [|a acts IH]; intros c c' Hrun.
  - simpl in *. by injection Hrun as <-.
  - unfold entry_times in *. simpl in *.
    destruct (exec a c) as [c1|] eqn:He; [|discriminate].
    rewrite (IH c1 c' Hrun), (exec_last_time a c c1 He).
    destruct a; try done.
    destruct (reader c); try done.
    simpl. rewrite last_cons. by destruct (last _).
Qed.


(** *** What each action does to the counters and to the two threads *)

Lemma notify_write_event_idle r : notify_write_event r = RIdle <-> r = RIdle.
Proof. by destruct r. Qed.

Lemma notify_read_event_idle w : notify_read_event w = WIdle <-> w = WIdle.
Proof. by destruct w. Qed.

Lemma write_tail_effect pd c :
  inv c -> buffer_size (q c) < fifo_size (q c) ->
  writer (write_tail pd c) = WIdle
  /\ buffer_size (q (write_tail pd c)) = buffer_size (q c) + 1
  /\ read_count (q (write_tail pd c)) = read_count (q c)
  /\ (reader (write_tail pd c) = RIdle <-> reader c = RIdle)
  /\ now (write_tail pd c) = now c.
Proof.
  intros [Hs _ [Hc _ _] _ _ _] Hroom. pose proof modulus_val.
  unfold write_tail. cbn [q writer reader now]. rewrite write_body_eq.
  cbn [buffer_size read_count]. rewrite wrap_small by lia.
  repeat split; try done; apply notify_write_event_idle.
Qed.

Lemma read_tail_effect c :
  inv c -> 0 < buffer_size (q c) ->
  reader (snd (read_tail c)) = RIdle
  /\ buffer_size (q (snd (read_tail c))) = buffer_size (q c) - 1
  /\ read_count (q (snd (read_tail c))) = U32.wrap (read_count (q c) + 1)
  /\ (writer (snd (read_tail c)) = WIdle <-> writer c = WIdle)
  /\ now (snd (read_tail c)) = now c.
Proof.
  intros [Hs _ [Hc _ _] _ _ _] Hsome. pose proof modulus_val.
  unfold read_tail. cbn [snd q writer reader now]. rewrite read_body_eq.
  cbn [snd buffer_size read_count]. rewrite (wrap_small (_ - 1)) by lia.
  repeat split; try done; apply notify_read_event_idle.
Qed.

Lemma exec_call_write pd c c' :
  inv c -> exec (CallWrite pd) c = Some c' ->
  (writer c' = WIdle
   /\ buffer_size (q c') = buffer_size (q c) + 1
   /\ read_count (q c') = read_count (q c)
   /\ (reader c' = RIdle <-> reader c = RIdle)
   /\ now c' = now c)
  \/ (writer c' = WWait pd /\ q c' = q c /\ reader c' = reader c
      /\ now c' = now c).
Proof.
  intros Hinv Hexec. unfold exec in Hexec.
  destruct (writer c); try discriminate. got Hexec. unfold write.
  destruct (Z.eqb_spec (buffer_size (q c)) (fifo_size (q c))) as [Hfull|Hroom].
  - right. done.
  - left. apply write_tail_effect; [done|].
    destruct Hinv as [_ _ [? _ _] _ _ _]. lia.
Qed.

Lemma exec_resume_write c c' :
  inv c -> exec ResumeWrite c = Some c' ->
  writer c' = WIdle
  /\ buffer_size (q c') = buffer_size (q c) + 1
  /\ read_count (q c') = read_count (q c)
  /\ (reader c' = RIdle <-> reader c = RIdle)
  /\ now c' = now c.
Proof.
  intros Hinv Hexec. unfold exec in Hexec.
  destruct (writer c) eqn:Ew; try discriminate. got Hexec.
  apply write_tail_effect; [done|].
  destruct Hinv as [_ _ _ _ Hw _]. by rewrite Ew in Hw.
Qed.

Lemma exec_call_read c c' :
  inv c -> exec CallRead c = Some c' ->
  (reader c' = RIdle
   /\ buffer_size (q c') = buffer_size (q c) - 1
   /\ read_count (q c') = U32.wrap (read_count (q c) + 1)
   /\ (writer c' = WIdle <-> writer c = WIdle)
   /\ now c' = now c)
  \/ (reader c' = RWait
      /\ buffer_size (q c') = buffer_size (q c)
      /\ read_count (q c') = read_count (q c)
      /\ writer c' = writer c
      /\ now c' = now c).
Proof.
  intros Hinv Hexec. unfold exec in Hexec.
  destruct (reader c) eqn:Er; try discriminate. got Hexec.
  assert (Hinv1 : inv (stamped c)).
  { destruct Hinv as [? ? [? ? ?] ? ? ?]. split; simpl; try done. }
  unfold read.
  destruct (Z.eqb_spec (buffer_size (q (stamped c))) 0) as [Hempty|Hsome].
  - right. done.
  - left. cbn [snd].
    apply (read_tail_effect (stamped c)); [done|].
    destruct Hinv1 as [_ _ [? _ _] _ _ _]. lia.
Qed.

Lemma exec_resume_read c c' :
  inv c -> exec ResumeRead c = Some c' ->
  reader c' = RIdle
  /\ buffer_size (q c') = buffer_size (q c) - 1
  /\ read_count (q c') = U32.wrap (read_count (q c) + 1)
  /\ (writer c' = WIdle <-> writer c = WIdle)
  /\ now c' = now c.
Proof.
  intros Hinv Hexec. unfold exec in Hexec.
  destruct (reader c) eqn:Er; try discriminate. got Hexec.
  apply read_tail_effect; [done|].
  destruct Hinv as [_ _ _ _ _ Hr]. by rewrite Er in Hr.
Qed.

Lemma exec_advance t c c' :
  exec (Advance t) c = Some c' ->
  q c' = q c /\ writer c' = writer c /\ reader c' = reader c /\ now c' = t
  /\ now c <= t.
Proof.
  unfold exec. destruct (Z.leb_spec (now c) t); [|discriminate].
  intros Hexec. by got Hexec.
Qed.


(** *** Values passed and values stored *)

Lemma exec_passed a c c' :
  exec a c = Some c' ->
  in_flight (writer c)
  ++ match a, writer c with CallWrite pd, WIdle => [pd] | _, _ => [] end
  = stored_by a c ++ in_flight (writer c').
Proof.
  intros Hexec. unfold stored_by, stores.
  destruct a; unfold exec in Hexec.
  - destruct (writer c) eqn:Ew; try discriminate. got Hexec. unfold write.
    by destruct (_ =? _).
  - destruct (writer c) eqn:Ew; try discriminate. by got Hexec.
  - destruct (reader c); try discriminate. got Hexec. unfold read.
    change (writer (stamped c)) with (writer c).
    destruct (_ =? _); cbn; destruct (writer c); cbn; done.
  - destruct (reader c); try discriminate. got Hexec.
    cbn; destruct (writer c); cbn; done.
  - got Hexec. cbn. destruct (writer c); cbn; done.
  - destruct (now c <=? t); try discriminate. got Hexec.
    cbn. destruct (writer c); cbn; done.
Qed.

Lemma run_passed acts : forall c c',
  run acts c = Some c' ->
  in_flight (writer c) ++ passed acts c
  = written acts c ++ in_flight (writer c').
Proof.
  induction acts as [|a acts IH]; intros c c' Hrun.
  - simpl in *. injection Hrun as <-. by rewrite app_nil_r.
  - unfold passed, written in *. simpl in *.
    destruct (exec a c) as [c1|] eqn:He; [|discriminate].
    pose proof (exec_passed a c c1 He) as H1.
    rewrite app_assoc, H1, <- !app_assoc. f_equal. by apply IH.
Qed.


(** *** The claims about the channel *)

(** C10: [reset()] sets [buffer_size], [wr_ptr] and [rd_ptr] to 0 and leaves
    every other field as it was: the array and its capacity, and the four
    statistics fields [read_count], [average_acc], [max_buffered] and
    [last_time], which therefore survive a reset. *)
Theorem reset_frame (f : fifo) :
  reset f =
  {| data := data f;
     fifo_size := fifo_size f;
     wr_ptr := 0;
     rd_ptr := 0;
     buffer_size := 0;
     read_count := read_count f;
     max_buffered := max_buffered f;
     average_acc := average_acc f;
     last_time := last_time f |}.
Proof. reflexivity. Qed.

(** C4 (the code at the failing input): the destructor of a queue from which
    nothing was ever read divides by [read_count = 0]; no test precedes the
    two divisions, so no report is defined. *)
Theorem dtor_divides_by_zero (size : Z) :
  read_count (ctor size) = 0 /\ dtor (ctor size) = None.
Proof. split; reflexivity. Qed.

(** C8 (as amended): from a queue created with a capacity between 1 and
    the largest [uint32_t], after any sequence of puts, takes and resets in
    which a reset is called only while no put or take is in progress,
    [buffer_size] is between 0 and [fifo_size] and both pointers are below
    [fifo_size]. *)
Theorem ring_invariant (size : Z) (acts : list action) (c : chan) :
  1 <= size < U32.modulus ->
  disciplined acts (init size) = true ->
  run acts (init size) = Some c ->
  bounds (q c) /\ fifo_size (q c) = size.
Proof.
  intros Hsize Hd Hrun. split.
  - apply (run_inv acts _ _ (inv_init size Hsize) Hd Hrun).
  - apply (run_fifo_size acts _ _ Hrun).
Qed.

Lemma ring_invariant_witness :
  exists c,
    run [CallWrite 1; CallWrite 2; CallWrite 3; CallRead; ResumeWrite;
         CallReset; CallRead; CallWrite 4; ResumeRead] (init 2) = Some c
    /\ bounds (q c) /\ fifo_size (q c) = 2.
Proof.
  eexists. split; [vm_compute; reflexivity|].
  apply (ring_invariant 2
           [CallWrite 1; CallWrite 2; CallWrite 3; CallRead; ResumeWrite;
            CallReset; CallRead; CallWrite 4; ResumeRead]).
  - pose proof modulus_val. lia.
  - vm_compute. reflexivity.
  - vm_compute. reflexivity.
Defined.

(** C8 (counterexample): a reader is suspended on the empty queue of
    capacity 1, a put wakes it, and [reset] is called before the reader
    runs again; the resumed [read] decrements [buffer_size] from 0, and the
    queue ends with a count of [2^32 - 1] in a ring of one cell. *)
Lemma reset_in_mid_read_breaks_bounds :
  exists c,
    run [CallRead; CallWrite 7; CallReset; ResumeRead] (init 1) = Some c
    /\ disciplined [CallRead; CallWrite 7; CallReset; ResumeRead] (init 1)
       = false
    /\ fifo_size (q c) = 1
    /\ buffer_size (q c) = 4294967295
    /\ ~ bounds (q c).
Proof.
  eexists. split; [vm_compute; reflexivity|].
  split; [vm_compute; reflexivity|].
  split; [vm_compute; reflexivity|].
  split; [vm_compute; reflexivity|].
  intros [[_ H] _ _]. vm_compute in H. by apply H.
Qed.

(** C7: in any run of puts and takes on a queue of capacity at least 1, the
    values passed to [write], in call order, are the values returned by
    [read], in order, followed by the values still held by the ring, oldest
    first, and by the value of a put that is suspended; so the values taken
    are always a prefix of the values put, and they are all of them once the
    queue is empty and no put is suspended. *)
Theorem fifo_order (size : Z) (acts : list action) (c : chan) :
  1 <= size < U32.modulus ->
  put_take_only acts = true ->
  run acts (init size) = Some c ->
  passed acts (init size)
  = taken acts (init size) ++ contents (q c) ++ in_flight (writer c)
  /\ (is_empty (q c) = true -> writer c = WIdle ->
      taken acts (init size) = passed acts (init size)).
Proof.
  intros Hsize Hpt Hrun.
  pose proof (run_contents acts _ _ (inv_init size Hsize) Hpt Hrun) as H1.
  pose proof (run_passed acts _ _ Hrun) as H2.
  change (contents (q (init size))) with (@nil Z) in H1.
  change (in_flight (writer (init size))) with (@nil Z) in H2.
  rewrite app_nil_l in H1, H2.
  assert (Heq : passed acts (init size)
                = taken acts (init size) ++ contents (q c)
                  ++ in_flight (writer c))
    by (by rewrite H2, H1, app_assoc).
  split; [exact Heq|].
  intros Hempty Hidle. rewrite Heq, Hidle.
  pose proof (contents_length (q c)) as Hlen.
  unfold is_empty in Hempty. apply Z.eqb_eq in Hempty.
  rewrite Hempty in Hlen.
  destruct (contents (q c)); [|discriminate].
  by rewrite !app_nil_r.
Qed.

Lemma fifo_order_witness :
  passed [CallWrite 5; CallWrite 6; CallWrite 7; CallRead; ResumeWrite;
          CallRead; CallWrite 8; CallRead] (init 2)
  = [5; 6; 7; 8]
  /\ taken [CallWrite 5; CallWrite 6; CallWrite 7; CallRead; ResumeWrite;
            CallRead; CallWrite 8; CallRead] (init 2)
     = [5; 6; 7]
  /\ exists c,
       run [CallWrite 5; CallWrite 6; CallWrite 7; CallRead; ResumeWrite;
            CallRead; CallWrite 8; CallRead] (init 2) = Some c
       /\ passed [CallWrite 5; CallWrite 6; CallWrite 7; CallRead;
                  ResumeWrite; CallRead; CallWrite 8; CallRead] (init 2)
          = taken [CallWrite 5; CallWrite 6; CallWrite 7; CallRead;
                   ResumeWrite; CallRead; CallWrite 8; CallRead] (init 2)
            ++ contents (q c) ++ in_flight (writer c).
Proof.
  split; [vm_compute; reflexivity|]. split; [vm_compute; reflexivity|].
  eexists. split; [vm_compute; reflexivity|].
  apply (fifo_order 2
           [CallWrite 5; CallWrite 6; CallWrite 7; CallRead; ResumeWrite;
            CallRead; CallWrite 8; CallRead]).
  - pose proof modulus_val. lia.
  - vm_compute. reflexivity.
  - vm_compute. reflexivity.
Defined.



(** C2 (counterexample): a reader is suspended on the empty queue, a put
    wakes it, and the queue is reset before the reader runs again; the
    resumed [read] does not look at [buffer_size] again: it counts a take,
    and [buffer_size] wraps around from 0 to [2^32 - 1]. *)
Lemma resumed_read_does_not_recheck :
  exists c c',
    run [CallRead; CallWrite 7; CallReset] (init 1) = Some c
    /\ reader c = RReady
    /\ is_empty (q c) = true
    /\ exec ResumeRead c = Some c'
    /\ read_count (q c') = 1
    /\ buffer_size (q c') = 4294967295.
Proof.
  do 2 eexists.
  split; [vm_compute; reflexivity|].
  split; [vm_compute; reflexivity|].
  split; [vm_compute; reflexivity|].
  split; [vm_compute; reflexivity|].
  split; vm_compute; reflexivity.
Qed.

(** C2 (as amended): the guard is tested once, on entry.  A resumed [write]
    runs the storing part and a resumed [read] the removing part without a
    second test.  With one writer, one reader, and [reset] called only while
    no operation is in progress, the test would succeed anyway: whenever a
    writer has been notified the queue is not full, and whenever a reader
    has been notified the queue is not empty. *)
Theorem resumption_guard (size : Z) (acts : list action) (c : chan) :
  1 <= size < U32.modulus ->
  disciplined acts (init size) = true ->
  run acts (init size) = Some c ->
  (forall pd, writer c = WReady pd ->
     exec ResumeWrite c = Some (write_tail pd c) /\ is_full (q c) = false)
  /\ (reader c = RReady ->
      exec ResumeRead c = Some (snd (read_tail c))
      /\ is_empty (q c) = false).
Proof.
  intros Hsize Hd Hrun.
  pose proof (run_inv acts _ _ (inv_init size Hsize) Hd Hrun)
    as [_ _ _ _ Hw Hr].
  split.
  - intros pd Hpd. rewrite Hpd in Hw. unfold exec, is_full. rewrite Hpd.
    split; [done|]. apply Z.eqb_neq. lia.
  - intros Hrd. rewrite Hrd in Hr. unfold exec, is_empty. rewrite Hrd.
    split; [done|]. apply Z.eqb_neq. lia.
Qed.

Lemma resumption_guard_witness :
  exists c,
    run [CallWrite 1; CallWrite 2; CallRead] (init 1) = Some c
    /\ writer c = WReady 2
    /\ exec ResumeWrite c = Some (write_tail 2 c)
    /\ is_full (q c) = false.
Proof.
  eexists. split; [vm_compute; reflexivity|].
  split; [vm_compute; reflexivity|].
  apply (resumption_guard 1 [CallWrite 1; CallWrite 2; CallRead]).
  - pose proof modulus_val. lia.
  - vm_compute. reflexivity.
  - vm_compute. reflexivity.
  - vm_compute. reflexivity.
Defined.

(** C6 (counterexample): [read] is entered at time 0 on an empty queue and
    suspends; the put that wakes it comes at time 1000, and the element is
    removed at time 1000; [last_time] still holds 0, the time of entry. *)
Lemma last_time_is_not_removal_time :
  exists c,
    run [CallRead; Advance 1000; CallWrite 1; ResumeRead] (init 3) = Some c
    /\ removal_times [CallRead; Advance 1000; CallWrite 1; ResumeRead]
         (init 3) = [1000]
    /\ read_count (q c) = 1
    /\ now c = 1000
    /\ last_time (q c) = 0.
Proof.
  eexists. split; [vm_compute; reflexivity|].
  conjs; (vm_compute; reflexivity).
Qed.

(** C6 (as amended): [last_time] is assigned by the first statement of
    [read], before the emptiness test and before any suspension.  At every
    moment it is the simulated time at which [read] was last entered (and
    [SC_ZERO_TIME] before the first entry), whether or not that [read] has
    removed its element yet. *)
Theorem last_time_is_entry_time (size : Z) (acts : list action) (c : chan) :
  run acts (init size) = Some c ->
  last_time (q c) = default SC_ZERO_TIME (last (entry_times acts (init size))).
Proof. intros Hrun. by rewrite (run_last_time acts _ _ Hrun). Qed.

Lemma last_time_is_entry_time_witness :
  exists c,
    run [CallWrite 1; Advance 40; CallRead; Advance 100; CallRead;
         Advance 1000; CallWrite 2; ResumeRead] (init 3) = Some c
    /\ last_time (q c)
       = default SC_ZERO_TIME
           (last (entry_times
                    [CallWrite 1; Advance 40; CallRead; Advance 100; CallRead;
                     Advance 1000; CallWrite 2; ResumeRead] (init 3)))
    /\ entry_times [CallWrite 1; Advance 40; CallRead; Advance 100; CallRead;
                    Advance 1000; CallWrite 2; ResumeRead] (init 3)
       = [40; 100]
    /\ last_time (q c) = 100.
Proof.
  eexists. split; [vm_compute; reflexivity|].
  split.
  - apply (last_time_is_entry_time 3
             [CallWrite 1; Advance 40; CallRead; Advance 100; CallRead;
              Advance 1000; CallWrite 2; ResumeRead]).
    vm_compute. reflexivity.
  - split; vm_compute; reflexivity.
Defined.

End ChanProofs.

(** ** Proofs about the program *)

Module ModelProofs.

Import Fifo Chan Model ChanProofs.

#[local] Arguments burst_sum : simpl never.
#[local] Arguments burst_length : simpl never.
#[local] Arguments U32.wrap : simpl never.
#[local] Arguments exec : simpl never.

Section Runs.

Variable RAND_MAX : Z.
Variable rand : nat -> Z.

#[local] Abbreviation step := (Model.step RAND_MAX rand).
#[local] Abbreviation reachable := (Model.reachable RAND_MAX rand).
#[local] Abbreviation producer_main := (Model.producer_main RAND_MAX rand).
#[local] Abbreviation sys_inv := (Model.sys_inv RAND_MAX rand).

(** Splits a hypothesis [f s = Some s'] along the tests of [f]. *)
Ltac branches H :=
  repeat match type of H with
         | None = Some _ => discriminate H
         | (if ?b then _ else _) = Some _ => destruct b eqn:?
         | match ?x with _ => _ end = Some _ => destruct x eqn:?
         end.

(** Opens the goal [sys_inv s'] for a state [s'] given as a record. *)
Ltac establish :=
  split; cbn; unfold quota, pending, Model.last_burst in *; cbn.

(** The channel invariant after the action recorded in [He]. *)
Ltac chan_step He Hch Hch1 :=
  match type of He with
  | exec ?a ?c = Some ?c1 =>
      assert (Hch1 : inv c1) by exact (exec_inv a c c1 Hch eq_refl He)
  end.

Lemma mon_inv_boot size : mon_inv (boot size).
Proof. split; simpl; done. Qed.

Lemma step_mon_inv : forall s s', mon_inv s -> step s s' -> mon_inv s'.
Proof.
  intros s0 s0' Hinv Hstep.
  destruct Hstep as [s s' H|s s' H|s s' H|s s' H|s s' H];
    destruct Hinv as [Hn Hc Hm].
  - unfold Model.producer_main in H. branches H; got H.
    all: split; cbn; try done.
    all: intros Hnew; specialize (Hn Hnew); congruence.
  - unfold consumer_main in H. branches H; got H.
    all: split; cbn; done.
  - unfold monitor_thread in H. branches H; got H.
    all: split; cbn; rewrite ?app_nil_r; try done.
    all: try (intros; congruence).
    all: try tauto.
    destruct Hm as [Hm1 Hm2]. rewrite Hm2. eauto.
  - unfold update_phase in H. branches H; got H.
    all: match goal with
         | Hb : _ && negb (Bool.eqb ?x ?y) = true |- _ =>
             apply andb_true_iff in Hb as [_ Hb];
             destruct x eqn:?, y eqn:?; try discriminate Hb
         end.
    all: match goal with
         | Hm : context [mon ?s] |- _ => destruct (mon s) eqn:?
         end.
    all: split; cbn; try done.
    all: try (intros; congruence).
    all: try (by destruct Hm).
    all: by specialize (Hc eq_refl).
  - unfold advance_time in H. branches H; got H.
    all: split; cbn; done.
Qed.

Lemma reachable_mon_inv size s : reachable size s -> mon_inv s.
Proof.
  induction 1 as [|s s' _ IH Hstep].
  - apply mon_inv_boot.
  - eapply step_mon_inv; eauto.
Qed.

Lemma sched_step s s' : sched RAND_MAX rand s = Some s' -> step s s'.
Proof.
  unfold sched. intros H.
  destruct (Model.producer_main RAND_MAX rand s) eqn:E1;
    [got H; by apply step_producer|].
  destruct (consumer_main s) eqn:E2; [got H; by apply step_consumer|].
  destruct (monitor_thread s) eqn:E3; [got H; by apply step_monitor|].
  destruct (update_phase s) eqn:E4; [got H; by apply step_update|].
  by apply step_advance.
Qed.

Lemma sc_start_reachable size fuel : forall s,
  reachable size s -> reachable size (sc_start RAND_MAX rand fuel s).
Proof.
  induction fuel as [|fuel IH]; intros s Hs; cbn [sc_start]; [done|].
  destruct (sched RAND_MAX rand s) as [s'|] eqn:E; [|done].
  apply IH. eapply reachable_step; [exact Hs|]. by apply sched_step.
Qed.

(** C9: whenever the monitor moves to [M_Done], in the state it moves from
    the flag [prod_done_sig] is raised (the producer has returned, so it was
    raised at an earlier or at the current time), [is_empty] holds of the
    queue, and the monitor prints the current time as its first and only
    line, in the same evaluation in which it saw the queue empty. *)
Theorem drain_law (size : Z) (s s' : sys) :
  reachable size s -> step s s' ->
  mon s <> M_Done -> mon s' = M_Done ->
  sig_cur s = true
  /\ p_pc (prod s) = P_Done
  /\ is_empty (q (ch s)) = true
  /\ ch s' = ch s
  /\ console s' = [now (ch s)].
Proof.
  intros Hreach Hstep Hpre Hpost.
  destruct (reachable_mon_inv size s Hreach) as [Hn Hc Hm].
  destruct Hstep as [s s' H|s s' H|s s' H|s s' H|s s' H].
  - unfold Model.producer_main in H. branches H; got H; by cbn in Hpost.
  - unfold consumer_main in H. branches H; got H; by cbn in Hpost.
  - unfold monitor_thread in H. branches H; got H; cbn in Hpost;
      try discriminate Hpost.
    destruct Hm as [Hm1 Hm2]. cbn. rewrite Hm2.
    repeat split; auto.
  - unfold update_phase in H. branches H; got H. cbn in Hpost.
    by destruct (mon s).
  - unfold advance_time in H. branches H; got H; by cbn in Hpost.
Qed.

Hypothesis RAND_MAX_pos : 0 < RAND_MAX.
Hypothesis rand_range : forall n, 0 <= rand n <= RAND_MAX.

Lemma burst_length_range r :
  0 <= r <= RAND_MAX -> 1 <= burst_length RAND_MAX r <= 20.
Proof.
  intros Hr. unfold burst_length.
  assert (H : 0 <= 19 * r / RAND_MAX <= 19).
  { split.
    - apply Z.div_pos; lia.
    - apply Z.div_le_upper_bound; lia. }
  pose proof modulus_val. rewrite wrap_small by lia. lia.
Qed.

Lemma burst_sum_S n :
  burst_sum RAND_MAX rand (S n)
  = burst_sum RAND_MAX rand n + burst_length RAND_MAX (rand n).
Proof.
  unfold burst_sum. rewrite seq_S, map_app, foldr_app. cbn [map foldr].
  generalize (map (fun k => burst_length RAND_MAX (rand k)) (seq 0 n)).
  intros l. rewrite Z.add_0_r, Nat.add_0_l.
  generalize (burst_length RAND_MAX (rand n)). intros b.
  induction l as [|x l IH]; cbn [foldr]; lia.
Qed.

Lemma sys_inv_boot size : 1 <= size < U32.modulus -> sys_inv (boot size).
Proof.
  intros Hsize. split; cbn; try done.
  by apply inv_init.
Qed.

Lemma step_sys_inv : forall s s', sys_inv s -> step s s' -> sys_inv s'.
Proof.
  intros s0 s0' Hinv Hstep. pose proof modulus_val as Hmod.
  destruct Hstep as [s s' H|s s' H|s s' H|s s' H|s s' H];
    destruct Hinv as [Hch Hw Hr Hrc Hcnt Hsum Hb].
  - (* producer *)
    unfold Model.producer_main in H.
    destruct (negb (turn Producer s)); [discriminate|].
    pose proof (burst_length_range _ (rand_range (Nat.pred (draws s)))) as HL.
    unfold quota, pending, Model.last_burst in *.
    destruct (prod s) as [pc tl i pd] eqn:Hp. cbn in *.
    destruct pc.
    + (* P_Loop *)
      got H. pose proof (burst_length_range _ (rand_range (draws s))).
      establish; rewrite ?Hp; cbn; try done.
      * rewrite burst_sum_S. lia.
      * lia.
    + (* P_Burst *)
      destruct (Z.leb_spec 0 (i - 1)).
      * destruct (exec _ (ch s)) as [c1|] eqn:He; [|discriminate].
        chan_step He Hch Hch1.
        destruct (exec_call_write _ _ _ Hch He)
          as [(E1 & E2 & E3 & E4 & E5)|(E1 & E2 & E3 & E4)].
        -- rewrite E1 in H. got H.
           establish; rewrite ?Hp, ?E2, ?E3; cbn; try done; try lia.
           destruct (cons s); try done; by rewrite E4.
        -- rewrite E1 in H. got H.
           establish; rewrite ?Hp, ?E2, ?E3; cbn; try done; try lia.
           by rewrite E1.
      * destruct (Z.leb_spec tl 0); got H.
        all: establish; rewrite ?Hp; cbn; try done; try lia.
    + (* P_InWrite *)
      destruct (exec _ (ch s)) as [c1|] eqn:He; [|discriminate]. got H.
      chan_step He Hch Hch1.
      destruct (exec_resume_write _ _ Hch He) as (E1 & E2 & E3 & E4 & E5).
      establish; rewrite ?Hp, ?E2, ?E3; cbn; try done; try lia.
      destruct (cons s); try done; by rewrite E4.
    + (* P_Pace *)
      got H. establish; rewrite ?Hp; cbn; try done.
    + discriminate.
  - (* consumer *)
    unfold consumer_main in H.
    destruct (negb (turn Consumer s)); [discriminate|].
    assert (Hsmall : read_count (q (ch s)) + 1 < U32.modulus).
    { pose proof (burst_length_range _ (rand_range (Nat.pred (draws s)))).
      destruct Hch as [_ _ [? _ _] _ _ _].
      unfold quota, Model.last_burst in *. destruct (p_pc (prod s)); lia. }
    destruct (cons s) eqn:Hc.
    + (* C_Loop *)
      destruct (exec _ (ch s)) as [c1|] eqn:He; [|discriminate].
      chan_step He Hch Hch1.
      destruct (exec_call_read _ _ Hch He)
        as [(E1 & E2 & E3 & E4 & E5)|(E1 & E2 & E3 & E4 & E5)].
      * rewrite E1 in H. got H. rewrite wrap_small in E3 by lia.
        establish; rewrite ?E2, ?E3; try done; try lia.
        destruct (p_pc (prod s)); try done; by rewrite E4.
      * rewrite E1 in H. got H.
        establish; rewrite ?E2, ?E3, ?E4; try done.
        by rewrite E1.
    + (* C_InRead *)
      destruct (exec _ (ch s)) as [c1|] eqn:He; [|discriminate]. got H.
      chan_step He Hch Hch1.
      destruct (exec_resume_read _ _ Hch He) as (E1 & E2 & E3 & E4 & E5).
      rewrite wrap_small in E3 by lia.
      establish; rewrite ?E2, ?E3; try done; try lia.
      destruct (p_pc (prod s)); try done; by rewrite E4.
    + (* C_Pace *)
      got H. split; cbn; try done.
  - (* monitor *)
    unfold monitor_thread in H. branches H; got H.
    all: split; cbn; done.
  - (* update *)
    unfold update_phase in H. branches H; got H.
    all: split; cbn; done.
  - (* advance *)
    unfold advance_time in H.
    destruct (_ && _); [|discriminate].
    destruct (next_wake s) as [t|]; [|discriminate].
    destruct (exec _ (ch s)) as [c1|] eqn:He; [|discriminate]. got H.
    chan_step He Hch Hch1.
    destruct (exec_advance _ _ _ He) as (E1 & E2 & E3 & E4 & E5).
    establish; rewrite ?E1, ?E2, ?E3; done.
Qed.

Lemma reachable_sys_inv size s :
  1 <= size < U32.modulus -> reachable size s -> sys_inv s.
Proof.
  intros Hsize. induction 1 as [|s s' _ IH Hstep].
  - by apply sys_inv_boot.
  - eapply step_sys_inv; eauto.
Qed.

(** C1 (as amended): in every state in which the producer has returned and
    the queue is empty, the number of elements taken is the sum of the burst
    lengths drawn, which is [quota - total_loop] with [total_loop] the
    (non-positive) final value of the counter: at least the quota of 10000,
    and above it by less than the length of the last burst. *)
Theorem conservation (size : Z) (s : sys) :
  1 <= size < U32.modulus ->
  reachable size s ->
  p_pc (prod s) = P_Done ->
  is_empty (q (ch s)) = true ->
  read_count (q (ch s)) = burst_sum RAND_MAX rand (draws s)
  /\ read_count (q (ch s)) = quota - total_loop (prod s)
  /\ quota <= read_count (q (ch s))
     < quota + burst_length RAND_MAX (rand (Nat.pred (draws s))).
Proof.
  intros Hsize Hreach Hdone Hempty.
  destruct (reachable_sys_inv size s Hsize Hreach) as [_ _ _ _ Hcnt Hsum Hb].
  unfold is_empty in Hempty. apply Z.eqb_eq in Hempty.
  unfold pending, Model.last_burst in *. rewrite Hdone in Hsum, Hb.
  rewrite <- Hsum. lia.
Qed.

End Runs.

Lemma conservation_witness :
  read_count (q (ch (sc_start glibc_RAND_MAX (always 1000000000)
                       (Z.to_nat 60000) (boot 4))))
  = burst_sum glibc_RAND_MAX (always 1000000000)
      (draws (sc_start glibc_RAND_MAX (always 1000000000)
                (Z.to_nat 60000) (boot 4)))
  /\ read_count (q (ch (sc_start glibc_RAND_MAX (always 1000000000)
                          (Z.to_nat 60000) (boot 4))))
     = quota - total_loop (prod (sc_start glibc_RAND_MAX (always 1000000000)
                                   (Z.to_nat 60000) (boot 4)))
  /\ quota
     <= read_count (q (ch (sc_start glibc_RAND_MAX (always 1000000000)
                             (Z.to_nat 60000) (boot 4))))
     < quota
       + burst_length glibc_RAND_MAX
           (always 1000000000
              (Nat.pred (draws (sc_start glibc_RAND_MAX (always 1000000000)
                                  (Z.to_nat 60000) (boot 4))))).
Proof.
  apply (conservation glibc_RAND_MAX (always 1000000000)) with (size := 4).
  - reflexivity.
  - intros n. unfold always, glibc_RAND_MAX. lia.
  - pose proof modulus_val. lia.
  - apply sc_start_reachable. constructor.
  - vm_compute. reflexivity.
  - vm_compute. reflexivity.
Defined.

(** C1 (counterexample): with a random source that makes every burst 3
    elements long, the run with capacity 10 ends with the producer returned,
    the monitor done, the queue empty, and 10002 elements taken: the 3334th
    burst starts with one element of the quota left and is written in full. *)
Lemma quota_is_overshot :
  exists s,
    reachable glibc_RAND_MAX (always 300000000) 10 s
    /\ burst_length glibc_RAND_MAX 300000000 = 3
    /\ p_pc (prod s) = P_Done
    /\ mon s = M_Done
    /\ is_empty (q (ch s)) = true
    /\ read_count (q (ch s)) = 10002.
Proof.
  exists (sc_start glibc_RAND_MAX (always 300000000) (Z.to_nat 60000)
            (boot 10)).
  split; [apply sc_start_reachable; constructor|].
  conjs; (vm_compute; reflexivity).
Qed.

Lemma drain_law_witness :
  exists s',
    sched glibc_RAND_MAX (always glibc_RAND_MAX)
      (sc_start glibc_RAND_MAX (always glibc_RAND_MAX) (Z.to_nat 47019)
         (boot 10)) = Some s'
    /\ mon s' = M_Done
    /\ sig_cur (sc_start glibc_RAND_MAX (always glibc_RAND_MAX)
                  (Z.to_nat 47019) (boot 10)) = true
    /\ p_pc (prod (sc_start glibc_RAND_MAX (always glibc_RAND_MAX)
                     (Z.to_nat 47019) (boot 10))) = P_Done
    /\ is_empty (q (ch (sc_start glibc_RAND_MAX (always glibc_RAND_MAX)
                          (Z.to_nat 47019) (boot 10)))) = true
    /\ ch s' = ch (sc_start glibc_RAND_MAX (always glibc_RAND_MAX)
                     (Z.to_nat 47019) (boot 10))
    /\ console s'
       = [now (ch (sc_start glibc_RAND_MAX (always glibc_RAND_MAX)
                     (Z.to_nat 47019) (boot 10)))].
Proof.
  eexists. split; [vm_compute; reflexivity|].
  split; [vm_compute; reflexivity|].
  apply (drain_law glibc_RAND_MAX (always glibc_RAND_MAX) 10).
  - apply sc_start_reachable. constructor.
  - apply sched_step. vm_compute. reflexivity.
  - vm_compute. discriminate.
  - vm_compute. reflexivity.
Defined.

(** The same lag in the program itself, with bursts of 3 and capacity 10:
    the consumer enters [read] at 1300 ns on the empty queue, the producer's
    next burst comes at 2000 ns, and the step that removes the seventh
    element is taken at 2000 ns with [last_time] still at 1300 ns. *)
Example last_time_lags_in_program :
  exists s s',
    s = sc_start glibc_RAND_MAX (always 300000000) 40 (boot 10)
    /\ consumer_main s = Some s'
    /\ read_count (q (ch s)) = 6
    /\ read_count (q (ch s')) = 7
    /\ now (ch s') = 2000
    /\ last_time (q (ch s')) = 1300.
Proof.
  do 2 eexists. split; [reflexivity|].
  split; [vm_compute; reflexivity|].
  conjs; (vm_compute; reflexivity).
Qed.

(** Whatever the argument, the capacity that [sc_main] passes on is between
    1 and 100000. *)
Lemma sc_main_capacity arg :
  exists size, sc_main arg = boot size /\ 1 <= size <= 100000.
Proof.
  unfold sc_main.
  set (size0 := match arg with Some a => U32.wrap a | None => 10 end).
  destruct (Z.ltb_spec size0 1) as [H1|H1].
  - exists 1. by cbn.
  - destruct (Z.ltb_spec 100000 size0) as [H2|H2]; eexists; split; done || lia.
Qed.

(** Every value of [rand()] but [RAND_MAX] gives a burst length in the
    announced range. *)
Lemma burst_length_below (RAND_MAX r : Z) :
  0 <= r < RAND_MAX -> 1 <= burst_length RAND_MAX r <= 19.
Proof.
  intros Hr. unfold burst_length.
  assert (H : 0 <= 19 * r / RAND_MAX < 19).
  { split.
    - apply Z.div_pos; lia.
    - apply Z.div_lt_upper_bound; lia. }
  pose proof modulus_val. rewrite wrap_small by lia. lia.
Qed.

(** C5 (the code at the failing input): when [rand()] returns [RAND_MAX]
    the burst length is 20, outside the range 1 to 19 that the comment on
    the statement announces. *)
Theorem burst_length_at_RAND_MAX (RAND_MAX : Z) :
  0 < RAND_MAX -> burst_length RAND_MAX RAND_MAX = 20.
Proof.
  intros Hpos. unfold burst_length.
  rewrite Z.div_mul by lia. reflexivity.
Qed.

Lemma burst_length_at_RAND_MAX_witness :
  burst_length glibc_RAND_MAX glibc_RAND_MAX = 20.
Proof. apply burst_length_at_RAND_MAX. reflexivity. Defined.

End ModelProofs.

(** ** Further laws of the channel *)

Module ChanLaws.

Import Fifo Chan ChanProofs.

#[local] Arguments read_body : simpl never.
#[local] Arguments write_body : simpl never.
#[local] Arguments contents : simpl never.
#[local] Arguments U32.wrap : simpl never.

(** *** Suspension and the guards *)

(** X1: a writer is suspended only on a full queue and a reader only on an
    empty one, so with a capacity of at least 1 the two threads are never
    suspended at the same time: no wake-up is lost. *)
Theorem no_lost_wakeup (size : Z) (acts : list action) (c : chan) :
  1 <= size < U32.modulus ->
  disciplined acts (init size) = true ->
  run acts (init size) = Some c ->
  (forall pd, writer c = WWait pd -> is_full (q c) = true)
  /\ (reader c = RWait -> is_empty (q c) = true)
  /\ (forall pd, writer c = WWait pd -> reader c <> RWait).
Proof.
  intros Hsize Hd Hrun.
  destruct (run_inv acts _ _ (inv_init size Hsize) Hd Hrun)
    as [Hs _ _ _ Hw Hr].
  conjs.
  - intros pd Hpd. rewrite Hpd in Hw. unfold is_full. by apply Z.eqb_eq.
  - intros Hrd. rewrite Hrd in Hr. unfold is_empty. by apply Z.eqb_eq.
  - intros pd Hpd Hrd. rewrite Hpd in Hw. rewrite Hrd in Hr. lia.
Qed.

Lemma no_lost_wakeup_witness :
  exists c,
    run [CallWrite 1; CallWrite 2; CallWrite 3] (init 2) = Some c
    /\ writer c = WWait 3
    /\ is_full (q c) = true.
Proof.
  eexists. split; [vm_compute; reflexivity|].
  split; [vm_compute; reflexivity|].
  apply (no_lost_wakeup 2 [CallWrite 1; CallWrite 2; CallWrite 3])
    with (pd := 3).
  - pose proof modulus_val. lia.
  - vm_compute. reflexivity.
  - vm_compute. reflexivity.
  - vm_compute. reflexivity.
Defined.

(** One action leaves a suspended writer suspended, and stores nothing,
    unless it removes an element. *)
Lemma exec_writer_waits pd a c c' :
  writer c = WWait pd -> exec a c = Some c' -> removes a c = false ->
  writer c' = WWait pd /\ stored_by a c = [] /\ data (q c') = data (q c).
Proof.
  intros Hw Hexec Hrem. unfold stored_by, stores, removes in *.
  destruct a; unfold exec in Hexec; rewrite ?Hw in *; try discriminate.
  - destruct (reader c); try discriminate. got Hexec. unfold read.
    change (buffer_size (q (stamped c))) with (buffer_size (q c)).
    destruct (buffer_size (q c) =? 0); [done|discriminate].
  - destruct (reader c); discriminate.
  - by got Hexec.
  - destruct (now c <=? t); try discriminate. by got Hexec.
Qed.

(** X2: a [write] that has suspended on the full queue stays suspended, and
    the array is not touched, for as long as no [read] removes an element;
    the first removal makes the writer runnable. *)
Theorem put_waits_for_take (pd : Z) (acts : list action) (c c' : chan) :
  writer c = WWait pd ->
  run acts c = Some c' ->
  (occupancies acts c = [] ->
     writer c' = WWait pd /\ written acts c = []
     /\ data (q c') = data (q c))
  /\ (forall a c1, exec a c = Some c1 -> removes a c = true ->
        writer c1 = WReady pd).
Proof.
  intros Hw Hrun. split.
  - revert c Hw Hrun.
    induction acts as [|a acts IH]; intros c Hw Hrun Hocc.
    + simpl in Hrun. by injection Hrun as <-.
    + unfold occupancies, written in *. simpl in *.
      destruct (exec a c) as [c1|] eqn:He; [|discriminate].
      destruct (removes a c) eqn:Hrem; [discriminate|].
      destruct (exec_writer_waits pd a c c1 Hw He Hrem) as (H1 & H2 & H3).
      destruct (IH c1 H1 Hrun Hocc) as (I1 & I2 & I3).
      rewrite H2, I2, I3, H3. done.
  - intros a c1 Hexec Hrem. unfold removes in Hrem.
    destruct a; try discriminate; unfold exec in Hexec;
      destruct (reader c) eqn:Hr; try discriminate; got Hexec.
    + unfold read.
      change (buffer_size (q (stamped c))) with (buffer_size (q c)).
      destruct (buffer_size (q c) =? 0); [discriminate|].
      cbn. by rewrite Hw.
    + cbn. by rewrite Hw.
Qed.

Lemma put_waits_for_take_witness :
  exists c c',
    run [CallWrite 1; CallWrite 2] (init 1) = Some c
    /\ writer c = WWait 2
    /\ run [Advance 5; Advance 9] c = Some c'
    /\ writer c' = WWait 2
    /\ written [Advance 5; Advance 9] c = []
    /\ data (q c') = data (q c).
Proof.
  do 2 eexists.
  split; [vm_compute; reflexivity|].
  split; [vm_compute; reflexivity|].
  split; [vm_compute; reflexivity|].
  eapply (proj1 (put_waits_for_take 2 [Advance 5; Advance 9] _ _ _ _)).
  vm_compute. reflexivity.
  Unshelve.
  - vm_compute. reflexivity.
  - vm_compute. reflexivity.
Defined.


(** One action leaves a suspended reader suspended, and the statistics as
    they are, unless it stores an element. *)
Lemma exec_reader_waits a c c' :
  reader c = RWait -> exec a c = Some c' -> stored_by a c = [] ->
  reader c' = RWait /\ removed_by a c = []
  /\ read_count (q c') = read_count (q c)
  /\ average_acc (q c') = average_acc (q c)
  /\ max_buffered (q c') = max_buffered (q c)
  /\ last_time (q c') = last_time (q c).
Proof.
  intros Hr Hexec Hst. unfold stored_by, stores, removed_by, removes in *.
  destruct a; unfold exec in Hexec; rewrite ?Hr in *; try discriminate.
  - destruct (writer c); try discriminate. got Hexec. unfold write.
    destruct (buffer_size (q c) =? fifo_size (q c)); [|discriminate].
    by destruct (writer c).
  - destruct (writer c); discriminate.
  - got Hexec. by destruct (writer c).
  - destruct (now c <=? t); try discriminate. got Hexec. by destruct (writer c).
Qed.

(** X3: a [read] that has suspended on the empty queue stays suspended, and
    none of the statistics moves, for as long as no [write] stores an
    element; the first store makes the reader runnable. *)
Theorem take_waits_for_put (acts : list action) (c c' : chan) :
  reader c = RWait ->
  run acts c = Some c' ->
  (written acts c = [] ->
     reader c' = RWait /\ taken acts c = []
     /\ read_count (q c') = read_count (q c)
     /\ average_acc (q c') = average_acc (q c)
     /\ max_buffered (q c') = max_buffered (q c)
     /\ last_time (q c') = last_time (q c))
  /\ (forall a c1 pd, exec a c = Some c1 -> stores a c = Some pd ->
        reader c1 = RReady).
Proof.
  intros Hr Hrun. split.
  - revert c Hr Hrun.
    induction acts as [|a acts IH]; intros c Hr Hrun Hwr.
    + simpl in Hrun. by injection Hrun as <-.
    + unfold written, taken in *. simpl in *.
      destruct (exec a c) as [c1|] eqn:He; [|discriminate].
      apply app_eq_nil in Hwr as [Hwa Hwr].
      destruct (exec_reader_waits a c c1 Hr He Hwa)
        as (H1 & H2 & H3 & H4 & H5 & H6).
      destruct (IH c1 H1 Hrun Hwr) as (I1 & I2 & I3 & I4 & I5 & I6).
      rewrite H2, I2, I3, I4, I5, I6, H3, H4, H5, H6. done.
  - intros a c1 pd Hexec Hst. unfold stores in Hst.
    destruct a; try discriminate; unfold exec in Hexec;
      destruct (writer c) eqn:Hw; try discriminate; got Hexec.
    + unfold write.
      destruct (buffer_size (q c) =? fifo_size (q c)); [discriminate|].
      cbn. by rewrite Hr.
    + cbn. by rewrite Hr.
Qed.

Lemma take_waits_for_put_witness :
  exists c c',
    run [CallRead] (init 2) = Some c
    /\ reader c = RWait
    /\ run [Advance 5; Advance 9] c = Some c'
    /\ reader c' = RWait
    /\ taken [Advance 5; Advance 9] c = []
    /\ read_count (q c') = read_count (q c)
    /\ average_acc (q c') = average_acc (q c)
    /\ max_buffered (q c') = max_buffered (q c)
    /\ last_time (q c') = last_time (q c).
Proof.
  do 2 eexists.
  split; [vm_compute; reflexivity|].
  split; [vm_compute; reflexivity|].
  split; [vm_compute; reflexivity|].
  eapply (proj1 (take_waits_for_put [Advance 5; Advance 9] _ _ _ _)).
  vm_compute. reflexivity.
  Unshelve.
  - vm_compute. reflexivity.
  - vm_compute. reflexivity.
Defined.

(** *** The queries *)

(** X4: on a queue of capacity at least 1 that was never reset,
    [get_buffer_size] is the number of elements stored minus the number
    removed; [is_empty] holds exactly when the two numbers agree, [is_full]
    exactly when they differ by the capacity, and the two queries never
    hold together. *)
Theorem size_is_puts_minus_takes (size : Z) (acts : list action) (c : chan) :
  1 <= size < U32.modulus ->
  put_take_only acts = true ->
  run acts (init size) = Some c ->
  get_buffer_size (q c)
  = Z.of_nat (length (written acts (init size)))
    - Z.of_nat (length (taken acts (init size)))
  /\ (is_empty (q c) = true <->
      length (written acts (init size)) = length (taken acts (init size)))
  /\ (is_full (q c) = true <->
      Z.of_nat (length (written acts (init size)))
      = Z.of_nat (length (taken acts (init size))) + size)
  /\ (is_empty (q c) = true -> is_full (q c) = false).
Proof.
  intros Hsize Hpt Hrun.
  pose proof (run_contents acts _ _ (inv_init size Hsize) Hpt Hrun) as H1.
  change (contents (q (init size))) with (@nil Z) in H1.
  rewrite app_nil_l in H1. apply (f_equal (@length Z)) in H1.
  rewrite length_app, contents_length in H1.
  pose proof (put_take_only_disciplined acts (init size) Hpt) as Hd.
  destruct (run_inv acts _ _ (inv_init size Hsize) Hd Hrun)
    as [_ _ [Hc _ _] _ _ _].
  pose proof (run_fifo_size acts _ _ Hrun) as Hfs. cbn in Hfs.
  unfold get_buffer_size, is_empty, is_full. rewrite Hfs.
  destruct (Z.eqb_spec (buffer_size (q c)) 0);
    destruct (Z.eqb_spec (buffer_size (q c)) size);
    conjs; try split; try done; try lia.
Qed.


Lemma size_is_puts_minus_takes_witness :
  exists c,
    run [CallWrite 5; CallWrite 6; CallRead; CallWrite 7] (init 2) = Some c
    /\ get_buffer_size (q c)
       = Z.of_nat (length (written [CallWrite 5; CallWrite 6; CallRead;
                                    CallWrite 7] (init 2)))
         - Z.of_nat (length (taken [CallWrite 5; CallWrite 6; CallRead;
                                    CallWrite 7] (init 2)))
    /\ get_buffer_size (q c) = 2.
Proof.
  eexists. split; [vm_compute; reflexivity|].
  split; [|vm_compute; reflexivity].
  apply (size_is_puts_minus_takes 2
           [CallWrite 5; CallWrite 6; CallRead; CallWrite 7]).
  - pose proof modulus_val. lia.
  - vm_compute. reflexivity.
  - vm_compute. reflexivity.
Defined.


(** *** Reset *)

Lemma run_app acts1 : forall acts2 c,
  run (acts1 ++ acts2) c
  = match run acts1 c with Some c1 => run acts2 c1 | None => None end.
Proof.
  induction acts1 as [|a acts1 IH]; intros acts2 c; simpl; [done|].
  destruct (exec a c); [apply IH|done].
Qed.

Lemma disciplined_app acts1 : forall acts2 c c1,
  run acts1 c = Some c1 ->
  disciplined (acts1 ++ acts2) c
  = disciplined acts1 c && disciplined acts2 c1.
Proof.
  induction acts1 as [|a acts1 IH]; intros acts2 c c1 Hrun; simpl in *.
  - by injection Hrun as <-.
  - destruct (exec a c) as [c0|]; [|discriminate].
    by rewrite (IH acts2 c0 c1 Hrun), andb_assoc.
Qed.

(** X5: a [reset] called while no operation is in progress empties the
    queue, and from there on the queue is first-in first-out again: the
    values passed to [write] after the reset are the values returned by
    [read] after it, followed by the ring's contents and by the value of a
    suspended put.  Nothing stored before the reset is ever returned. *)
Theorem order_survives_reset
    (size : Z) (before after : list action) (c1 c : chan) :
  1 <= size < U32.modulus ->
  disciplined (before ++ [CallReset]) (init size) = true ->
  run (before ++ [CallReset]) (init size) = Some c1 ->
  put_take_only after = true ->
  run after c1 = Some c ->
  contents (q c1) = []
  /\ passed after c1 = taken after c1 ++ contents (q c) ++ in_flight (writer c).
Proof.
  intros Hsize Hd Hrun Hpt Hrun2.
  pose proof (run_inv _ _ _ (inv_init size Hsize) Hd Hrun) as Hinv1.
  rewrite run_app in Hrun.
  destruct (run before (init size)) as [c0|] eqn:Hrun0; [|discriminate].
  rewrite (disciplined_app before [CallReset] _ c0 Hrun0) in Hd.
  apply andb_true_iff in Hd as [_ Hd]. cbn in Hd, Hrun.
  rewrite andb_true_r in Hd. unfold quiescent in Hd.
  destruct (writer c0) eqn:Hw; try discriminate.
  injection Hrun as <-.
  pose proof (run_contents after _ _ Hinv1 Hpt Hrun2) as H1.
  pose proof (run_passed after _ _ Hrun2) as H2.
  cbn [writer q] in H1, H2.
  change (contents (reset (q c0))) with (@nil Z) in H1.
  cbn [in_flight] in H2. rewrite app_nil_l in H1, H2.
  split; [reflexivity|]. cbn [q writer].
  by rewrite H2, H1, app_assoc.
Qed.

Lemma order_survives_reset_witness :
  exists c1 c,
    run ([CallWrite 5; CallWrite 6; CallRead] ++ [CallReset]) (init 2)
    = Some c1
    /\ run [CallWrite 7; CallWrite 8; CallRead] c1 = Some c
    /\ taken [CallWrite 7; CallWrite 8; CallRead] c1 = [7]
    /\ contents (q c1) = []
    /\ passed [CallWrite 7; CallWrite 8; CallRead] c1
       = taken [CallWrite 7; CallWrite 8; CallRead] c1
         ++ contents (q c) ++ in_flight (writer c).
Proof.
  do 2 eexists.
  split; [vm_compute; reflexivity|].
  split; [vm_compute; reflexivity|].
  split; [vm_compute; reflexivity|].
  apply (order_survives_reset 2 [CallWrite 5; CallWrite 6; CallRead]
           [CallWrite 7; CallWrite 8; CallRead]).
  - pose proof modulus_val. lia.
  - vm_compute. reflexivity.
  - vm_compute. reflexivity.
  - vm_compute. reflexivity.
  - vm_compute. reflexivity.
Defined.

(** *** The peak occupancy *)

Lemma run_peak acts : forall c c',
  run acts c = Some c' ->
  max_buffered (q c')
  = Z.max (max_buffered (q c))
          (foldr Z.max (max_buffered (q c)) (occupancies acts c)).
Proof.
  induction acts as [|a acts IH]; intros c c' Hrun.
  - simpl in *. injection Hrun as <-. unfold occupancies. cbn. lia.
  - unfold occupancies in *. simpl in *.
    destruct (exec a c) as [c1|] eqn:He; [|discriminate].
    pose proof (exec_stats a c c1 He) as Hst.
    rewrite (IH c1 c' Hrun).
    destruct (removes a c); destruct Hst as (_ & _ & H3); rewrite H3; cbn.
    + generalize (collect
        (fun a c => if removes a c then [buffer_size (q c)] else []) acts c1).
      intros l. generalize (max_buffered (q c)) (buffer_size (q c)).
      intros m b. induction l as [|x l IHl]; cbn; lia.
    + done.
Qed.

(** X6: [max_buffered] is the largest value [buffer_size] had immediately
    before a removal (0 as long as nothing was removed), in every run,
    whether or not a counter has wrapped; under the blocking protocol it
    never exceeds the capacity. *)
Theorem max_buffered_is_peak (size : Z) (acts : list action) (c : chan) :
  run acts (init size) = Some c ->
  max_buffered (q c) = max_of (occupancies acts (init size))
  /\ Forall (fun o => o <= max_buffered (q c)) (occupancies acts (init size))
  /\ (1 <= size < U32.modulus -> disciplined acts (init size) = true ->
      0 <= max_buffered (q c) <= size).
Proof.
  intros Hrun.
  pose proof (run_peak acts _ _ Hrun) as Hpk. cbn in Hpk.
  change (foldr Z.max 0 (occupancies acts (init size)))
    with (max_of (occupancies acts (init size))) in Hpk.
  pose proof (max_of_nonneg (occupancies acts (init size))) as Hnn.
  rewrite Z.max_r in Hpk by lia.
  conjs.
  - exact Hpk.
  - rewrite Hpk. clear.
    induction (occupancies acts (init size)) as [|x l IH];
      constructor; unfold max_of in *; cbn; [lia|].
    eapply Forall_impl; [exact IH|]. cbn. intros; lia.
  - intros Hsize Hd. rewrite Hpk. split; [lia|].
    pose proof (run_occupancy_range acts (init size) (inv_init size Hsize) Hd)
      as Hr. cbn in Hr. revert Hr.
    generalize (occupancies acts (init size)). intros l Hr.
    induction Hr as [|x l Hx Hr IH]; unfold max_of in *; cbn; lia.
Qed.

Lemma max_buffered_is_peak_witness :
  exists c,
    run [CallWrite 5; CallWrite 6; CallWrite 7; CallRead; CallRead]
      (init 4) = Some c
    /\ occupancies [CallWrite 5; CallWrite 6; CallWrite 7; CallRead; CallRead]
         (init 4) = [3; 2]
    /\ max_buffered (q c)
       = max_of (occupancies [CallWrite 5; CallWrite 6; CallWrite 7;
                              CallRead; CallRead] (init 4)).
Proof.
  eexists. split; [vm_compute; reflexivity|].
  split; [vm_compute; reflexivity|].
  apply (max_buffered_is_peak 4
           [CallWrite 5; CallWrite 6; CallWrite 7; CallRead; CallRead]).
  vm_compute. reflexivity.
Defined.

(** *** A queue that is kept full *)










End ChanLaws.

(** ** Further laws of the program *)

Module ProgramLaws.
Import Fifo Chan Model ChanProofs ModelProofs.

#[local] Arguments burst_sum : simpl never.
#[local] Arguments burst_length : simpl never.
#[local] Arguments U32.wrap : simpl never.
#[local] Arguments exec : simpl never.

(** Splits a hypothesis [f s = Some s'] along the tests of [f]. *)
Ltac branches H :=
  repeat match type of H with
         | None = Some _ => discriminate H
         | (if ?b then _ else _) = Some _ => destruct b eqn:?
         | match ?x with _ => _ end = Some _ => destruct x eqn:?
         end.

(** The channel invariant after the action recorded in [He]. *)
Ltac chan_step He Hch Hch1 :=
  match type of He with
  | exec ?a ?c = Some ?c1 =>
      assert (Hch1 : inv c1) by exact (exec_inv a c c1 Hch eq_refl He)
  end.

Lemma exec_now a c c' :
  exec a c = Some c' ->
  now c' = match a with Advance t => t | _ => now c end
  /\ now c <= now c'.
Proof.
  intros Hexec. destruct a; unfold exec in Hexec.
  - destruct (writer c); try discriminate. got Hexec. unfold write.
    destruct (_ =? _); cbn; lia.
  - destruct (writer c); try discriminate. got Hexec. cbn. lia.
  - destruct (reader c); try discriminate. got Hexec. unfold read.
    destruct (_ =? _); cbn; lia.
  - destruct (reader c); try discriminate. got Hexec. cbn. lia.
  - got Hexec. cbn. lia.
  - destruct (Z.leb_spec (now c) t); try discriminate. got Hexec. cbn. lia.
Qed.

Lemma exec_stats_kept a c c' :
  exec a c = Some c' -> removes a c = false ->
  read_count (q c') = read_count (q c)
  /\ average_acc (q c') = average_acc (q c)
  /\ max_buffered (q c') = max_buffered (q c).
Proof.
  intros He Hr. pose proof (exec_stats a c c' He) as H. by rewrite Hr in H.
Qed.

Lemma exec_stats_taken a c c' :
  exec a c = Some c' -> removes a c = true ->
  read_count (q c') = U32.wrap (read_count (q c) + 1)
  /\ average_acc (q c') = U32.wrap (average_acc (q c) + buffer_size (q c))
  /\ max_buffered (q c') = Z.max (max_buffered (q c)) (buffer_size (q c)).
Proof.
  intros He Hr. pose proof (exec_stats a c c' He) as H. by rewrite Hr in H.
Qed.

Lemma exec_values (P : Z -> Prop) a c c' :
  inv c -> a <> CallReset -> exec a c = Some c' ->
  Forall P (contents (q c) ++ in_flight (writer c)) ->
  Forall P (match a, writer c with
            | CallWrite pd, WIdle => [pd]
            | _, _ => []
            end) ->
  Forall P (contents (q c') ++ in_flight (writer c')).
Proof.
  intros Hinv Hnr He Hold Hnew.
  pose proof (exec_contents a c c' Hinv Hnr He) as H1.
  pose proof (exec_passed a c c' He) as H2.
  assert (H3 : Forall P (removed_by a c ++ contents (q c')
                         ++ in_flight (writer c'))).
  { rewrite app_assoc, <- H1, <- app_assoc, <- H2, app_assoc.
    apply Forall_app. done. }
  apply Forall_app in H3 as [_ H3]. done.
Qed.

Lemma foldr_min_le t ts x : In x (t :: ts) -> foldr Z.min t ts <= x.
Proof.
  induction ts as [|y ts IH]; cbn [foldr].
  - intros [->|[]]. lia.
  - intros [->|[->|Hin]].
    + specialize (IH (or_introl eq_refl)). lia.
    + lia.
    + specialize (IH (or_intror Hin)). lia.
Qed.

Lemma foldr_min_in t ts : In (foldr Z.min t ts) (t :: ts).
Proof.
  induction ts as [|y ts IH]; cbn [foldr].
  - by left.
  - destruct (Z.min_spec y (foldr Z.min t ts)) as [[_ ->]|[_ ->]].
    + right. by left.
    + destruct IH as [IH|IH]; [by left|right; by right].
Qed.

(** The earliest wake-up is one of the pending ones and none is earlier. *)
Lemma next_wake_spec s t :
  next_wake s = Some t ->
  (p_pc (prod s) = P_Pace t \/ cons s = C_Pace t \/ mon s = M_Poll t)
  /\ (forall u, p_pc (prod s) = P_Pace u -> t <= u)
  /\ (forall u, cons s = C_Pace u -> t <= u)
  /\ (forall u, mon s = M_Poll u -> t <= u).
Proof.
  unfold next_wake.
  set (ts := _ ++ _ ++ _).
  assert (Hin : forall u, In u ts <->
            p_pc (prod s) = P_Pace u \/ cons s = C_Pace u \/ mon s = M_Poll u).
  { intros u. unfold ts. rewrite !in_app_iff.
    destruct (p_pc (prod s)), (cons s), (mon s); cbn;
      intuition (try congruence; try done). }
  clearbody ts. destruct ts as [|t0 ts]; [discriminate|].
  intros H. got H.
  split; [apply Hin, foldr_min_in|].
  conjs; intros u Hu; apply foldr_min_le, Hin; tauto.
Qed.

Section Laws.

Variable RAND_MAX : Z.
Variable rand : nat -> Z.

#[local] Abbreviation step := (Model.step RAND_MAX rand).
#[local] Abbreviation reachable := (Model.reachable RAND_MAX rand).
#[local] Abbreviation producer_main := (Model.producer_main RAND_MAX rand).
#[local] Abbreviation sys_inv := (Model.sys_inv RAND_MAX rand).

Lemma sched_inv_boot size : sched_inv (boot size).
Proof. split; cbn; done. Qed.

Lemma step_sched_inv : forall s s', sched_inv s -> step s s' -> sched_inv s'.
Proof.
  intros s0 s0' Hinv Hstep.
  destruct Hstep as [s s' H|s s' H|s s' H|s s' H|s s' H];
    destruct Hinv as [Hr Hd Hf].
  - unfold Model.producer_main in H. branches H; got H.
    all: split; cbn; try done; try tauto.
    all: intros; congruence.
  - unfold consumer_main in H. branches H; got H.
    all: split; cbn; done.
  - unfold monitor_thread in H. branches H; got H.
    all: split; cbn; try done.
  - unfold update_phase in H. branches H; got H.
    split; cbn; try done.
    by destruct (mon s).
  - unfold advance_time in H. branches H; got H.
    split; cbn; done.
Qed.

Lemma reachable_sched_inv size s : reachable size s -> sched_inv s.
Proof.
  induction 1 as [|s s' _ IH Hstep].
  - apply sched_inv_boot.
  - eapply step_sched_inv; eauto.
Qed.

Lemma clock_inv_boot size : clock_inv (boot size).
Proof. split; cbn; done. Qed.

Lemma step_clock_inv : forall s s', clock_inv s -> step s s' -> clock_inv s'.
Proof.
  intros s0 s0' Hinv Hstep.
  destruct Hstep as [s s' H|s s' H|s s' H|s s' H|s s' H];
    destruct Hinv as [Hn Hl Hp Hc Hm].
  - unfold Model.producer_main in H.
    destruct (negb _); [discriminate|].
    destruct (p_pc (prod s)) eqn:Hpc.
    + got H. split; cbn; done.
    + destruct (0 <=? _).
      * destruct (exec _ (ch s)) as [c1|] eqn:He; [|discriminate].
        destruct (exec_now _ _ _ He) as [E1 _].
        pose proof (exec_last_time _ _ _ He) as E2. cbn in E2.
        destruct (writer c1); got H; split; cbn; rewrite ?E1, ?E2; done.
      * destruct (_ <=? 0); got H; split; cbn; try done. lia.
    + destruct (exec _ (ch s)) as [c1|] eqn:He; [|discriminate]. got H.
      destruct (exec_now _ _ _ He) as [E1 _].
      pose proof (exec_last_time _ _ _ He) as E2. cbn in E2.
      split; cbn; rewrite ?E1, ?E2; done.
    + got H. split; cbn; done.
    + discriminate.
  - unfold consumer_main in H.
    destruct (negb _); [discriminate|].
    destruct (cons s) eqn:Hc'.
    + destruct (exec _ (ch s)) as [c1|] eqn:He; [|discriminate].
      destruct (exec_now _ _ _ He) as [E1 _].
      pose proof (exec_last_time _ _ _ He) as E2.
      assert (Hl1 : 0 <= last_time (q c1) <= now (ch s))
        by (rewrite E2; destruct (reader (ch s)); lia).
      destruct (reader c1); got H; split; cbn; rewrite ?E1; try done; lia.
    + destruct (exec _ (ch s)) as [c1|] eqn:He; [|discriminate]. got H.
      destruct (exec_now _ _ _ He) as [E1 _].
      pose proof (exec_last_time _ _ _ He) as E2. cbn in E2.
      split; cbn; rewrite ?E1, ?E2; try done; lia.
    + got H. split; cbn; done.
  - unfold monitor_thread in H. branches H; got H.
    all: split; cbn; try done. lia.
  - unfold update_phase in H. branches H; got H.
    split; cbn; try done.
    by destruct (mon s).
  - unfold advance_time in H.
    destruct (_ && _); [|discriminate].
    destruct (next_wake s) as [t|] eqn:Hw; [|discriminate].
    destruct (exec _ (ch s)) as [c1|] eqn:He; [|discriminate]. got H.
    destruct (exec_advance _ _ _ He) as (E1 & _ & _ & E4 & E5).
    destruct (next_wake_spec _ _ Hw) as (_ & W1 & W2 & W3).
    split; cbn; rewrite ?E1, ?E4; try lia.
    + destruct (p_pc (prod s)); try done. specialize (W1 _ eq_refl). lia.
    + destruct (cons s); try done. specialize (W2 _ eq_refl). lia.
    + destruct (mon s); try done. specialize (W3 _ eq_refl). lia.
Qed.

Lemma reachable_clock_inv size s : reachable size s -> clock_inv s.
Proof.
  induction 1 as [|s s' _ IH Hstep].
  - apply clock_inv_boot.
  - eapply step_clock_inv; eauto.
Qed.

Lemma turn_producer_pace s t :
  sched_inv s -> turn Producer s = true -> p_pc (prod s) = P_Pace t ->
  t <= now (ch s).
Proof.
  intros [Hr _ _] Ht Hpc. unfold turn in Ht.
  destruct (running s) as [[| |]|]; try discriminate.
  - destruct Hr; congruence.
  - cbn in Ht. rewrite Hpc in Ht. lia.
Qed.

Lemma turn_consumer_pace s t :
  sched_inv s -> turn Consumer s = true -> cons s = C_Pace t ->
  t <= now (ch s).
Proof.
  intros [Hr _ _] Ht Hpc. unfold turn in Ht.
  destruct (running s) as [[| |]|]; try discriminate.
  - congruence.
  - cbn in Ht. rewrite Hpc in Ht. lia.
Qed.

Lemma turn_monitor_poll s t :
  sched_inv s -> turn Monitor s = true -> mon s = M_Poll t ->
  t <= now (ch s).
Proof.
  intros [Hr _ _] Ht Hpc. unfold turn in Ht.
  destruct (running s) as [[| |]|]; try discriminate.
  - congruence.
  - cbn in Ht. rewrite Hpc in Ht. lia.
Qed.

(** A thread whose turn it is can take its step. *)
Lemma producer_enabled s :
  sys_inv s -> sched_inv s -> turn Producer s = true ->
  exists s', producer_main s = Some s'.
Proof.
  intros Hsys [Hr _ _] Ht.
  pose proof (si_writer _ _ _ Hsys) as Hw.
  unfold Model.producer_main. rewrite Ht. cbn [negb].
  unfold turn in Ht.
  destruct (p_pc (prod s)) eqn:Hpc.
  - eauto.
  - destruct (0 <=? _); [|destruct (_ <=? 0); eauto].
    unfold exec. rewrite Hw. destruct (writer (write _ _)); eauto.
  - destruct (running s) as [[| |]|]; try discriminate.
    + destruct Hr; congruence.
    + cbn in Ht. rewrite Hpc in Ht. unfold exec.
      destruct (writer (ch s)); try discriminate. eauto.
  - eauto.
  - destruct (running s) as [[| |]|]; try discriminate.
    + destruct Hr; congruence.
    + cbn in Ht. by rewrite Hpc in Ht.
Qed.

Lemma consumer_enabled s :
  sys_inv s -> sched_inv s -> turn Consumer s = true ->
  exists s', consumer_main s = Some s'.
Proof.
  intros Hsys [Hr _ _] Ht.
  pose proof (si_reader _ _ _ Hsys) as Hrd.
  unfold consumer_main. rewrite Ht. cbn [negb].
  unfold turn in Ht.
  destruct (cons s) eqn:Hpc.
  - unfold exec. rewrite Hrd. destruct (reader (snd (read _))); eauto.
  - destruct (running s) as [[| |]|]; try discriminate.
    cbn in Ht. rewrite Hpc in Ht. unfold exec.
    destruct (reader (ch s)); try discriminate. eauto.
  - eauto.
Qed.

Lemma monitor_enabled s :
  sched_inv s -> turn Monitor s = true ->
  exists s', monitor_thread s = Some s'.
Proof.
  intros [Hr _ _] Ht.
  unfold monitor_thread. rewrite Ht. cbn [negb].
  unfold turn in Ht.
  destruct (mon s) eqn:Hpc.
  - destruct (sig_cur s); eauto.
  - destruct (running s) as [[| |]|]; try discriminate.
    cbn in Ht. by rewrite Hpc in Ht.
  - destruct (is_empty _); eauto.
  - eauto.
  - destruct (running s) as [[| |]|]; try discriminate.
    cbn in Ht. by rewrite Hpc in Ht.
Qed.

(** When the evaluation and update phases are over and a timed wait is
    pending, time can advance. *)
Lemma advance_enabled s t :
  settled s = true -> Bool.eqb (sig_new s) (sig_cur s) = true ->
  next_wake s = Some t -> exists s', advance_time s = Some s'.
Proof.
  intros Hset Heq Hw. unfold advance_time. rewrite Hset, Heq, Hw. cbn.
  destruct (next_wake_spec _ _ Hw) as (Hin & _).
  unfold settled in Hset. destruct (running s); [discriminate|].
  apply andb_true_iff in Hset as [Hset H3].
  apply andb_true_iff in Hset as [H1 H2].
  apply negb_true_iff in H1, H2, H3. cbn in H1, H2, H3.
  assert (Hlt : now (ch s) < t).
  { destruct Hin as [E|[E|E]]; rewrite E in *; lia. }
  unfold exec. destruct (Z.leb_spec (now (ch s)) t); [eauto|lia].
Qed.



Lemma sched_none_stuck s :
  sched RAND_MAX rand s = None -> forall s', ~ step s s'.
Proof.
  unfold sched. intros Hend.
  destruct (Model.producer_main RAND_MAX rand s) eqn:E1; [discriminate|].
  destruct (consumer_main s) eqn:E2; [discriminate|].
  destruct (monitor_thread s) eqn:E3; [discriminate|].
  destruct (update_phase s) eqn:E4; [discriminate|].
  intros s0' Hstep. revert E1 E2 E3 E4 Hend.
  destruct Hstep as [s s' H|s s' H|s s' H|s s' H|s s' H]; congruence.
Qed.

Lemma stuck_sched_none s :
  (forall s', ~ step s s') -> sched RAND_MAX rand s = None.
Proof.
  intros Hstuck. destruct (sched RAND_MAX rand s) as [s'|] eqn:E; [|done].
  destruct (Hstuck s'). by apply sched_step.
Qed.


Hypothesis RAND_MAX_pos : 0 < RAND_MAX.
Hypothesis rand_range : forall n, 0 <= rand n <= RAND_MAX.

(** The counters of a well-formed state are far from the end of
    [uint32_t]. *)
Lemma counts_small s :
  sys_inv s ->
  0 <= read_count (q (ch s))
  /\ 0 <= buffer_size (q (ch s)) <= fifo_size (q (ch s))
  /\ read_count (q (ch s)) + buffer_size (q (ch s)) <= quota + 19.
Proof.
  intros [Hch _ _ Hrc Hcnt _ Hb].
  pose proof (burst_length_range RAND_MAX RAND_MAX_pos _
                (rand_range (Nat.pred (draws s)))).
  destruct Hch as [_ _ [? _ _] _ _ _].
  unfold quota, Model.last_burst in *. destruct (p_pc (prod s)); lia.
Qed.

Lemma pace_inv_boot size : pace_inv (boot size).
Proof. split; cbn; done. Qed.

Lemma step_pace_inv : forall s s',
  sys_inv s -> sched_inv s -> clock_inv s -> pace_inv s -> step s s' ->
  pace_inv s'.
Proof.
  intros s0 s0' Hsys Hsch Hck Hinv Hstep. pose proof modulus_val as Hmod.
  destruct (counts_small _ Hsys) as (Hrc & Hbs & Hsmall). unfold quota in *.
  destruct Hstep as [s s' H|s s' H|s s' H|s s' H|s s' H];
    destruct Hinv as [Hk Hc Hp]; destruct Hck as [Hn Hl _ _ _];
    pose proof (si_chan _ _ _ Hsys) as Hch.
  - unfold Model.producer_main in H.
    destruct (negb _) eqn:Ht; [discriminate|]. apply negb_false_iff in Ht.
    destruct (p_pc (prod s)) eqn:Hpc.
    + got H. split; cbn; try done. lia.
    + destruct (0 <=? _).
      * destruct (exec _ (ch s)) as [c1|] eqn:He; [|discriminate].
        destruct (exec_now _ _ _ He) as [E1 _].
        pose proof (exec_last_time _ _ _ He) as E2. cbn in E2.
        destruct (exec_stats_kept _ _ _ He eq_refl) as (E3 & _).
        destruct (writer c1); got H; split; cbn; rewrite ?E1, ?E2, ?E3; done.
      * destruct (_ <=? 0); got H; split; cbn; try done; lia.
    + destruct (exec _ (ch s)) as [c1|] eqn:He; [|discriminate]. got H.
      destruct (exec_now _ _ _ He) as [E1 _].
      pose proof (exec_last_time _ _ _ He) as E2. cbn in E2.
      destruct (exec_stats_kept _ _ _ He eq_refl) as (E3 & _).
      split; cbn; rewrite ?E1, ?E2, ?E3; done.
    + got H. split; cbn; try done.
      pose proof (turn_producer_pace _ _ Hsch Ht Hpc). lia.
    + discriminate.
  - unfold consumer_main in H.
    destruct (negb _) eqn:Ht; [discriminate|]. apply negb_false_iff in Ht.
    destruct (cons s) eqn:Hc'.
    + destruct (exec _ (ch s)) as [c1|] eqn:He; [|discriminate].
      pose proof (exec_last_time _ _ _ He) as E0.
      assert (reader (ch s) = RIdle) as Hri
        by (unfold exec in He; by destruct (reader (ch s))).
      rewrite Hri in E0.
      destruct (exec_call_read _ _ Hch He)
        as [(E1 & E2 & E3 & E4 & E5)|(E1 & E2 & E3 & E4 & E5)].
      * rewrite E1 in H. got H. rewrite wrap_small in E3 by lia.
        split; cbn; rewrite ?E0, ?E3, ?E5; try lia.
        destruct (p_pc (prod s)); lia.
      * rewrite E1 in H. got H.
        split; cbn; rewrite ?E0, ?E3, ?E5; try lia.
        destruct (p_pc (prod s)); lia.
    + destruct (exec _ (ch s)) as [c1|] eqn:He; [|discriminate]. got H.
      pose proof (exec_last_time _ _ _ He) as E0. cbn in E0.
      destruct (exec_resume_read _ _ Hch He) as (E1 & E2 & E3 & E4 & E5).
      rewrite wrap_small in E3 by lia.
      split; cbn; rewrite ?E0, ?E3, ?E5; try lia.
      destruct (p_pc (prod s)); lia.
    + got H. pose proof (turn_consumer_pace _ _ Hsch Ht Hc').
      split; cbn; try done. lia.
  - unfold monitor_thread in H. branches H; got H.
    all: split; cbn; try done; by rewrite <- ?Heqc.
  - unfold update_phase in H. branches H; got H.
    split; cbn; done.
  - unfold advance_time in H.
    destruct (_ && _); [|discriminate].
    destruct (next_wake s) as [t|] eqn:Hw; [|discriminate].
    destruct (exec _ (ch s)) as [c1|] eqn:He; [|discriminate]. got H.
    destruct (exec_advance _ _ _ He) as (E1 & _ & _ & E4 & E5).
    split; cbn; rewrite ?E1, ?E4; try lia.
    + destruct (cons s); lia.
    + destruct (p_pc (prod s)); lia.
Qed.

Lemma reachable_pace_inv size s :
  1 <= size < U32.modulus -> reachable size s -> pace_inv s.
Proof.
  intros Hsize. induction 1 as [|s s' Hs IH Hstep].
  - apply pace_inv_boot.
  - eapply step_pace_inv; eauto.
    + eapply reachable_sys_inv; eauto.
    + eapply reachable_sched_inv; eauto.
    + eapply reachable_clock_inv; eauto.
Qed.

(** X9: the two paced loops keep their pace.  At any time, [k] entries of
    the consumer into [read] that removed an element take at least
    [100 * (k - 1)] ns up to the entry of the last one, which is not in the
    future; and [n] draws of a burst length take at least [1000 * (n - 1)]
    ns. *)
Theorem paced_loops (size : Z) (s : sys) :
  1 <= size < U32.modulus ->
  reachable size s ->
  100 * (read_count (q (ch s)) - 1) <= last_time (q (ch s)) <= now (ch s)
  /\ 1000 * (Z.of_nat (draws s) - 1) <= now (ch s).
Proof.
  intros Hsize Hreach.
  destruct (reachable_pace_inv size s Hsize Hreach) as [Hk _ Hp].
  destruct (reachable_clock_inv size s Hreach) as [_ Hl Hpp _ _].
  split; [lia|].
  destruct (p_pc (prod s)); lia.
Qed.


Lemma stats_inv_boot size : 1 <= size -> stats_inv (boot size).
Proof. intros Hsize. split; cbn; unfold quota; lia. Qed.

Lemma stats_taken s a c1 :
  sys_inv s -> stats_inv s ->
  exec a (ch s) = Some c1 -> removes a (ch s) = true ->
  1 <= buffer_size (q (ch s)) ->
  read_count (q c1) = read_count (q (ch s)) + 1
  /\ average_acc (q c1) = average_acc (q (ch s)) + buffer_size (q (ch s))
  /\ max_buffered (q c1)
     = Z.max (max_buffered (q (ch s))) (buffer_size (q (ch s)))
  /\ read_count (q c1) <= average_acc (q c1)
     <= read_count (q c1) * max_buffered (q c1)
  /\ 1 <= max_buffered (q c1) <= fifo_size (q (ch s))
  /\ max_buffered (q c1) <= quota + 19.
Proof.
  intros Hsys [Hlo Hhi Hmx Hfit _] He Hrem Hone. pose proof modulus_val.
  destruct (counts_small _ Hsys) as (Hrc & Hbs & Hsmall). unfold quota in *.
  destruct (exec_stats_taken _ _ _ He Hrem) as (E1 & E2 & E3).
  assert (read_count (q (ch s)) * max_buffered (q (ch s)) <= 10019 * 10019)
    by nia.
  rewrite wrap_small in E1 by lia. rewrite wrap_small in E2 by lia.
  rewrite E1, E2, E3. conjs; try lia.
  destruct (Z.max_spec (max_buffered (q (ch s))) (buffer_size (q (ch s))))
    as [[? ->]|[? ->]]; nia.
Qed.

Lemma step_stats_inv : forall s s',
  sys_inv s -> stats_inv s -> step s s' -> stats_inv s'.
Proof.
  intros s0 s0' Hsys Hinv Hstep.
  destruct Hstep as [s s' H|s s' H|s s' H|s s' H|s s' H];
    pose proof (si_chan _ _ _ Hsys) as Hch.
  - destruct Hinv as [Hlo Hhi Hmx Hfit Hsome].
    unfold Model.producer_main in H.
    destruct (negb _); [discriminate|].
    destruct (p_pc (prod s)) eqn:Hpc.
    + got H. split; cbn; done.
    + destruct (0 <=? _).
      * destruct (exec _ (ch s)) as [c1|] eqn:He; [|discriminate].
        destruct (exec_stats_kept _ _ _ He eq_refl) as (E1 & E2 & E3).
        pose proof (exec_fifo_size _ _ _ He) as E4.
        destruct (writer c1); got H; split; cbn; rewrite ?E1, ?E2, ?E3, ?E4;
          done.
      * destruct (_ <=? 0); got H; split; cbn; done.
    + destruct (exec _ (ch s)) as [c1|] eqn:He; [|discriminate]. got H.
      destruct (exec_stats_kept _ _ _ He eq_refl) as (E1 & E2 & E3).
      pose proof (exec_fifo_size _ _ _ He) as E4.
      split; cbn; rewrite ?E1, ?E2, ?E3, ?E4; done.
    + got H. split; cbn; done.
    + discriminate.
  - unfold consumer_main in H.
    destruct (negb _); [discriminate|].
    destruct (cons s) eqn:Hc'.
    + destruct (exec _ (ch s)) as [c1|] eqn:He; [|discriminate].
      pose proof (exec_fifo_size _ _ _ He) as E4.
      chan_step He Hch Hch1.
      assert (reader (ch s) = RIdle) as Hri
        by (unfold exec in He; by destruct (reader (ch s))).
      destruct (exec_call_read _ _ Hch He)
        as [(E1 & E2 & _)|(E1 & E2 & _)].
      * assert (Hone : 1 <= buffer_size (q (ch s))).
        { destruct Hch1 as [_ _ [? _ _] _ _ _]. lia. }
        assert (Hrem : removes CallRead (ch s) = true).
        { unfold removes. rewrite Hri. apply negb_true_iff, Z.eqb_neq. lia. }
        destruct (stats_taken _ _ _ Hsys Hinv He Hrem Hone)
          as (_ & _ & _ & ? & ? & ?).
        rewrite E1 in H. got H. split; cbn; rewrite ?E4; lia.
      * assert (Hrem : removes CallRead (ch s) = false).
        { unfold removes. rewrite Hri. apply negb_false_iff, Z.eqb_eq.
          destruct Hch1 as [_ _ _ _ _ Hr1]. rewrite E1 in Hr1. lia. }
        destruct (exec_stats_kept _ _ _ He Hrem) as (F1 & F2 & F3).
        destruct Hinv as [Hlo Hhi Hmx Hfit Hsome].
        rewrite E1 in H. got H.
        split; cbn; rewrite ?F1, ?F2, ?F3, ?E4; done.
    + destruct (exec _ (ch s)) as [c1|] eqn:He; [|discriminate]. got H.
      pose proof (exec_fifo_size _ _ _ He) as E4.
      assert (reader (ch s) = RReady) as Hri
        by (unfold exec in He; by destruct (reader (ch s))).
      assert (Hone : 1 <= buffer_size (q (ch s))).
      { destruct Hch as [_ _ _ _ _ Hr1]. rewrite Hri in Hr1. lia. }
      assert (Hrem : removes ResumeRead (ch s) = true).
      { unfold removes. by rewrite Hri. }
      destruct (stats_taken _ _ _ Hsys Hinv He Hrem Hone)
        as (_ & _ & _ & ? & ? & ?).
      split; cbn; rewrite ?E4; lia.
    + got H. destruct Hinv. split; cbn; done.
  - destruct Hinv. unfold monitor_thread in H. branches H; got H.
    all: split; cbn; done.
  - destruct Hinv. unfold update_phase in H. branches H; got H.
    split; cbn; done.
  - destruct Hinv. unfold advance_time in H.
    destruct (_ && _); [|discriminate].
    destruct (next_wake s) as [t|] eqn:Hw; [|discriminate].
    destruct (exec _ (ch s)) as [c1|] eqn:He; [|discriminate]. got H.
    destruct (exec_advance _ _ _ He) as (E1 & _).
    split; cbn; rewrite ?E1; done.
Qed.

Lemma reachable_stats_inv size s :
  1 <= size < U32.modulus -> reachable size s -> stats_inv s.
Proof.
  intros Hsize. induction 1 as [|s s' Hs IH Hstep].
  - apply stats_inv_boot. lia.
  - eapply step_stats_inv; eauto.
    eapply reachable_sys_inv; eauto.
Qed.

Lemma reachable_fifo_size size s :
  reachable size s -> fifo_size (q (ch s)) = size.
Proof.
  induction 1 as [|s s' Hs IH Hstep]; [done|].
  destruct Hstep as [s s' H|s s' H|s s' H|s s' H|s s' H].
  - unfold Model.producer_main in H. branches H; got H; cbn; try done.
    all: match goal with
         | He : exec _ _ = Some _ |- _ =>
             by rewrite (exec_fifo_size _ _ _ He)
         end.
  - unfold consumer_main in H. branches H; got H; cbn; try done.
    all: match goal with
         | He : exec _ _ = Some _ |- _ =>
             by rewrite (exec_fifo_size _ _ _ He)
         end.
  - unfold monitor_thread in H. branches H; got H; cbn; done.
  - unfold update_phase in H. branches H; got H; cbn; done.
  - unfold advance_time in H. branches H; got H; cbn.
    match goal with
    | He : exec _ _ = Some _ |- _ => by rewrite (exec_fifo_size _ _ _ He)
    end.
Qed.

#[local] Abbreviation value_inv := (Model.value_inv RAND_MAX rand).

Lemma value_inv_boot size : value_inv (boot size).
Proof. split; cbn; done. Qed.

Lemma step_value_inv : forall s s',
  sys_inv s -> value_inv s -> step s s' -> value_inv s'.
Proof.
  intros s0 s0' Hsys Hinv Hstep. pose proof modulus_val as Hmod.
  destruct Hstep as [s s' H|s s' H|s s' H|s s' H|s s' H];
    pose proof (si_chan _ _ _ Hsys) as Hch;
    pose proof (si_burst _ _ _ Hsys) as Hb;
    pose proof (si_writer _ _ _ Hsys) as Hw;
    destruct Hinv as [Hv Hpd].
  - unfold Model.producer_main in H.
    destruct (negb _); [discriminate|].
    pose proof (burst_length_range RAND_MAX RAND_MAX_pos _
                  (rand_range (Nat.pred (draws s)))) as HL.
    unfold Model.last_burst in *.
    destruct (prod s) as [pc tl i pd] eqn:Hp. cbn in *.
    destruct pc.
    + got H. split; cbn; unfold Model.last_burst; cbn; [done|]. lia.
    + destruct (Z.leb_spec 0 (i - 1)).
      * destruct (exec _ (ch s)) as [c1|] eqn:He; [|discriminate].
        assert (Hv1 : Forall (fun v => 1 <= v <= 20)
                        (contents (q c1) ++ in_flight (writer c1))).
        { eapply exec_values; eauto; [done|].
          rewrite Hw. constructor; [|constructor].
          rewrite wrap_small by lia. lia. }
        rewrite wrap_small in H by lia.
        destruct (writer c1) in H; got H; split; cbn;
          unfold Model.last_burst; rewrite ?Hp; cbn; try done; lia.
      * destruct (Z.leb_spec tl 0); got H; split; cbn;
          unfold Model.last_burst; rewrite ?Hp; done.
    + destruct (exec _ (ch s)) as [c1|] eqn:He; [|discriminate]. got H.
      assert (Hv1 : Forall (fun v => 1 <= v <= 20)
                      (contents (q c1) ++ in_flight (writer c1))).
      { eapply exec_values; eauto; try done; constructor. }
      split; cbn; unfold Model.last_burst; rewrite ?Hp; cbn; try done.
    + got H. split; cbn; unfold Model.last_burst; rewrite ?Hp; done.
    + discriminate.
  - unfold consumer_main in H.
    destruct (negb _); [discriminate|].
    destruct (cons s) eqn:Hc'.
    + destruct (exec _ (ch s)) as [c1|] eqn:He; [|discriminate].
      assert (Hv1 : Forall (fun v => 1 <= v <= 20)
                      (contents (q c1) ++ in_flight (writer c1))).
      { eapply exec_values; eauto; try done; constructor. }
      destruct (reader c1) in H; got H; split; cbn; done.
    + destruct (exec _ (ch s)) as [c1|] eqn:He; [|discriminate]. got H.
      assert (Hv1 : Forall (fun v => 1 <= v <= 20)
                      (contents (q c1) ++ in_flight (writer c1))).
      { eapply exec_values; eauto; try done; constructor. }
      split; cbn; done.
    + got H. split; cbn; done.
  - unfold monitor_thread in H. branches H; got H.
    all: split; cbn; done.
  - unfold update_phase in H. branches H; got H.
    split; cbn; done.
  - unfold advance_time in H.
    destruct (_ && _); [|discriminate].
    destruct (next_wake s) as [t|] eqn:Hw'; [|discriminate].
    destruct (exec _ (ch s)) as [c1|] eqn:He; [|discriminate]. got H.
    destruct (exec_advance _ _ _ He) as (E1 & E2 & _).
    split; cbn; rewrite ?E1, ?E2; done.
Qed.

Lemma reachable_value_inv size s :
  1 <= size < U32.modulus -> reachable size s -> value_inv s.
Proof.
  intros Hsize. induction 1 as [|s s' Hs IH Hstep].
  - apply value_inv_boot.
  - eapply step_value_inv; eauto.
    eapply reachable_sys_inv; eauto.
Qed.


(** A state in which the scheduler finds no move is the state of a
    completed run. *)
Lemma halted_state (size : Z) (s : sys) :
  1 <= size < U32.modulus ->
  reachable size s ->
  sched RAND_MAX rand s = None ->
  p_pc (prod s) = P_Done
  /\ mon s = M_Done
  /\ (exists t, console s = [t])
  /\ cons s = C_InRead
  /\ reader (ch s) = RWait
  /\ is_empty (q (ch s)) = true
  /\ read_count (q (ch s)) = burst_sum RAND_MAX rand (draws s)
  /\ quota <= read_count (q (ch s))
  /\ exists r,
       dtor (q (ch s)) = Some r
       /\ r_total_transferred r = read_count (q (ch s)).
Proof.
  intros Hsize Hreach Hend.
  pose proof (reachable_sys_inv _ _ RAND_MAX_pos rand_range size s Hsize Hreach)
    as Hsys.
  pose proof (reachable_sched_inv size s Hreach) as Hsch.
  pose proof (reachable_mon_inv _ _ size s Hreach) as Hmon.
  unfold sched in Hend.
  destruct (Model.producer_main RAND_MAX rand s) eqn:E1; [discriminate|].
  destruct (consumer_main s) eqn:E2; [discriminate|].
  destruct (monitor_thread s) eqn:E3; [discriminate|].
  destruct (update_phase s) eqn:E4; [discriminate|].
  assert (T1 : turn Producer s = false).
  { destruct (turn Producer s) eqn:T; [|done].
    destruct (producer_enabled s Hsys Hsch T). congruence. }
  assert (T2 : turn Consumer s = false).
  { destruct (turn Consumer s) eqn:T; [|done].
    destruct (consumer_enabled s Hsys Hsch T). congruence. }
  assert (T3 : turn Monitor s = false).
  { destruct (turn Monitor s) eqn:T; [|done].
    destruct (monitor_enabled s Hsch T). congruence. }
  unfold turn in T1, T2, T3.
  destruct (running s) as [[| |]|] eqn:Hrun; try discriminate.
  assert (Hset : settled s = true).
  { unfold settled. by rewrite Hrun, T1, T2, T3. }
  assert (Heq : Bool.eqb (sig_new s) (sig_cur s) = true).
  { unfold update_phase in E4. rewrite Hset in E4.
    by destruct (Bool.eqb _ _). }
  assert (Hnw : next_wake s = None).
  { destruct (next_wake s) as [t|] eqn:Hw; [|done].
    destruct (advance_enabled s t Hset Heq Hw). congruence. }
  apply Bool.eqb_prop in Heq.
  destruct Hsys as [Hch Hw Hr Hrc Hcnt Hsum Hb].
  destruct Hch as [Hs _ [Hc _ _] _ Hiw Hir].
  destruct Hsch as [_ Hd Hf]. destruct Hmon as [_ _ Hm].
  unfold next_wake in Hnw. cbn in T1, T2, T3.
  assert (Hcons : cons s = C_InRead /\ reader (ch s) = RWait).
  { destruct (cons s); [discriminate| |].
    - by destruct (reader (ch s)).
    - exfalso. destruct (p_pc (prod s)); discriminate. }
  destruct Hcons as [Hcons Hread]. rewrite Hread in Hir.
  rewrite Hcons in Hnw.
  assert (Hprod : p_pc (prod s) = P_Done).
  { destruct (p_pc (prod s)); try discriminate; try done.
    destruct (writer (ch s)); try done. lia. }
  rewrite Hprod in *. cbn in Hnw.
  assert (Hmd : mon s = M_Done).
  { destruct (mon s); try discriminate; try done.
    specialize (Hd eq_refl). specialize (Hf eq_refl). congruence. }
  rewrite Hmd in Hm. destruct Hm as [_ Hm].
  unfold pending in Hsum. rewrite Hprod in Hsum.
  unfold quota in *.
  conjs; try done.
  - unfold is_empty. by apply Z.eqb_eq.
  - lia.
  - lia.
  - destruct (dtor_defined (q (ch s))) as [per ->]; [lia|].
    eexists. split; reflexivity.
Qed.


(** X12: the simulation cannot get stuck half way.  A state of a run from
    which no move is possible, under any scheduling, is the state of a
    completed run: the producer has returned, the monitor has printed its
    one line and returned, the consumer is suspended in [read] on the empty
    queue, every element of every burst drawn has been taken, these are at
    least the quota, and the destructor's divisions are defined. *)
Theorem ends_only_when_complete (size : Z) (s : sys) :
  1 <= size < U32.modulus ->
  reachable size s ->
  (forall s', ~ step s s') ->
  p_pc (prod s) = P_Done
  /\ mon s = M_Done
  /\ (exists t, console s = [t])
  /\ cons s = C_InRead
  /\ reader (ch s) = RWait
  /\ is_empty (q (ch s)) = true
  /\ read_count (q (ch s)) = burst_sum RAND_MAX rand (draws s)
  /\ quota <= read_count (q (ch s))
  /\ exists r,
       dtor (q (ch s)) = Some r
       /\ r_total_transferred r = read_count (q (ch s)).
Proof.
  intros Hsize Hreach Hstuck.
  apply (halted_state size s Hsize Hreach), stuck_sched_none, Hstuck.
Qed.

Lemma quotient_bounds a b m :
  0 < b -> b <= a -> a <= b * m ->
  (1 <= inject_Z a / inject_Z b)%Q /\ (inject_Z a / inject_Z b <= inject_Z m)%Q.
Proof.
  intros Hb Hlo Hhi.
  assert (Hpos : (0 < inject_Z b)%Q) by (unfold Qlt; cbn; lia).
  split.
  - apply Qle_shift_div_l; [done|]. unfold Qle, Qmult; cbn. lia.
  - apply Qle_shift_div_r; [done|]. unfold Qle, Qmult; cbn. lia.
Qed.

(** X10: the figures of the destructor's report in the program.  In every
    state of a run in which at least one element has been taken, the
    divisions of [~fifo()] are defined, no accumulator has wrapped, and the
    report gives the capacity, an average fill depth between 1 and the peak
    occupancy [max_buffered], which is at most the capacity, the number of
    elements taken, and a total time that is at least 100 ns per element
    taken but the last. *)
Theorem report_within_capacity (size : Z) (s : sys) :
  1 <= size < U32.modulus ->
  reachable size s ->
  1 <= read_count (q (ch s)) ->
  1 <= max_buffered (q (ch s)) <= size
  /\ read_count (q (ch s)) <= average_acc (q (ch s))
     <= read_count (q (ch s)) * max_buffered (q (ch s))
  /\ exists r,
       dtor (q (ch s)) = Some r
       /\ r_fifo_size r = size
       /\ (1 <= r_avg_fill_depth r)%Q
       /\ (r_avg_fill_depth r <= inject_Z (max_buffered (q (ch s))))%Q
       /\ r_total_transferred r = read_count (q (ch s))
       /\ 100 * (r_total_transferred r - 1) <= r_total_time r <= now (ch s).
Proof.
  intros Hsize Hreach Hone.
  destruct (reachable_stats_inv size s Hsize Hreach)
    as [Hlo Hhi Hmx Hfit Hsome].
  destruct (reachable_pace_inv size s Hsize Hreach) as [Hk _ _].
  destruct (reachable_clock_inv size s Hreach) as [_ Hl _ _ _].
  pose proof (reachable_fifo_size size s Hreach) as Hfs.
  specialize (Hsome Hone).
  split; [lia|]. split; [lia|].
  destruct (dtor_defined (q (ch s))) as [per ->]; [lia|].
  eexists. split; [reflexivity|].
  cbn [r_fifo_size r_avg_fill_depth r_total_transferred r_total_time].
  destruct (quotient_bounds (average_acc (q (ch s))) (read_count (q (ch s)))
              (max_buffered (q (ch s)))) as [Q1 Q2]; try lia.
  destruct (binary64_between _ 1 (max_buffered (q (ch s)))
              ltac:(lia) ltac:(unfold quota in Hfit; lia) Q1 Q2)
    as [B1 B2].
  conjs; try done; lia.
Qed.

(** X11: the values that travel through the queue.  In every state of a
    run, each value held by the ring or by a suspended [write] is the
    position of an element in its burst, between 1 and 20; so is the value
    that the next [read] returns when the queue is not empty (no cell is
    read that was not written); and inside a burst [pd] is the number of
    elements already passed to [write], [pd + i] the length of the
    burst. *)
Theorem values_are_burst_positions (size : Z) (s : sys) :
  1 <= size < U32.modulus ->
  reachable size s ->
  Forall (fun v => 1 <= v <= 20)
         (contents (q (ch s)) ++ in_flight (writer (ch s)))
  /\ (is_empty (q (ch s)) = false -> 1 <= fst (read_body (q (ch s))) <= 20)
  /\ (p_pc (prod s) = P_Burst \/ p_pc (prod s) = P_InWrite ->
      0 <= p_pd (prod s)
      /\ p_pd (prod s) + p_i (prod s) = last_burst RAND_MAX rand s).
Proof.
  intros Hsize Hreach.
  destruct (reachable_value_inv size s Hsize Hreach) as [Hv Hpd].
  pose proof (reachable_sys_inv _ _ RAND_MAX_pos rand_range size s Hsize Hreach)
    as Hsys.
  destruct (si_chan _ _ _ Hsys) as [Hs _ Hb _ _ _].
  split; [done|]. split.
  - intros Hne. unfold is_empty in Hne. apply Z.eqb_neq in Hne.
    assert (Hsome : 0 < buffer_size (q (ch s)))
      by (destruct Hb as [? _ _]; lia).
    rewrite (contents_read _ Hs Hb Hsome) in Hv.
    by inversion Hv.
  - intros [E|E]; by rewrite E in Hpd.
Qed.


End Laws.
Lemma wrap_negative a :
  - 2 ^ 31 <= a < 0 -> U32.wrap a = a + 4294967296.
Proof.
  intros Ha. unfold U32.wrap, U32.modulus.
  change (2 ^ 32) with 4294967296. change (2 ^ 31) with 2147483648 in Ha.
  symmetry. apply (Z.mod_unique_pos _ _ (-1)); lia.
Qed.

(** X7: the capacity that [sc_main] passes to the design.  It is always
    between 1 and 100000: 10 without an argument, the argument itself when
    it lies in that range, 1 for an argument of 0 (which is also what [atoi]
    returns for text that is not a number), 100000 for a larger one, and
    100000 as well for a negative one, which the conversion to [uint32_t]
    turns into a number above [2^31] before the lower bound is tested. *)
Theorem sc_main_clamps (arg : option Z) :
  exists size,
    sc_main arg = boot size
    /\ fifo_size (q (ch (sc_main arg))) = size
    /\ 1 <= size <= 100000
    /\ match arg with
       | None => size = 10
       | Some a =>
           (1 <= a <= 100000 -> size = a)
           /\ (a = 0 -> size = 1)
           /\ (100000 < a < 2 ^ 31 -> size = 100000)
           /\ (- 2 ^ 31 <= a < 0 -> size = 100000)
       end.
Proof.
  pose proof modulus_val as Hmod.
  assert (Hneg : forall a, - 2 ^ 31 <= a < 0 -> 2147483648 <= U32.wrap a)
    by (intros a Ha; rewrite wrap_negative by done;
        change (2 ^ 31) with 2147483648 in Ha; lia).
  change (2 ^ 31) with 2147483648 in *.
  destruct arg as [a|]; unfold sc_main.
  - destruct (Z.ltb_spec (U32.wrap a) 1) as [H1|H1].
    + exists 1. cbn. conjs; try done; try lia; intros Ha.
      * rewrite wrap_small in H1 by lia. lia.
      * rewrite wrap_small in H1 by lia. lia.
      * specialize (Hneg a Ha). lia.
    + destruct (Z.ltb_spec 100000 (U32.wrap a)) as [H2|H2].
      * exists 100000. cbn. conjs; try done; try lia; intros Ha.
        -- rewrite wrap_small in H2 by lia. lia.
        -- rewrite wrap_small in H2 by lia. lia.
      * exists (U32.wrap a). cbn. conjs; try done; try lia; intros Ha.
        -- rewrite wrap_small by lia. done.
        -- rewrite wrap_small in H1 by lia. lia.
        -- rewrite wrap_small in H2 by lia. lia.
        -- specialize (Hneg a Ha). lia.
  - exists 10. cbn. conjs; done.
Qed.


Lemma paced_loops_witness :
  100 * (read_count (q (ch (sc_start glibc_RAND_MAX (always 1000000000)
                              (Z.to_nat 60000) (boot 4)))) - 1)
  <= last_time (q (ch (sc_start glibc_RAND_MAX (always 1000000000)
                         (Z.to_nat 60000) (boot 4))))
  <= now (ch (sc_start glibc_RAND_MAX (always 1000000000)
                (Z.to_nat 60000) (boot 4)))
  /\ 1000 * (Z.of_nat (draws (sc_start glibc_RAND_MAX (always 1000000000)
                                (Z.to_nat 60000) (boot 4))) - 1)
     <= now (ch (sc_start glibc_RAND_MAX (always 1000000000)
                   (Z.to_nat 60000) (boot 4))).
Proof.
  apply (paced_loops glibc_RAND_MAX (always 1000000000)) with (size := 4).
  - reflexivity.
  - intros n. unfold always, glibc_RAND_MAX. lia.
  - pose proof modulus_val. lia.
  - apply sc_start_reachable. constructor.
Defined.

Lemma ends_only_when_complete_witness :
  p_pc (prod (sc_start glibc_RAND_MAX (always 300000000) (Z.to_nat 60000)
                (boot 10))) = P_Done
  /\ read_count (q (ch (sc_start glibc_RAND_MAX (always 300000000)
                          (Z.to_nat 60000) (boot 10)))) = 10002.
Proof.
  destruct (ends_only_when_complete glibc_RAND_MAX (always 300000000)
              eq_refl) with
    (size := 10)
    (s := sc_start glibc_RAND_MAX (always 300000000) (Z.to_nat 60000)
            (boot 10))
    as (H1 & _).
  - intros n. unfold always, glibc_RAND_MAX. lia.
  - pose proof modulus_val. lia.
  - apply sc_start_reachable. constructor.
  - apply sched_none_stuck. vm_compute. reflexivity.
  - split; [exact H1|]. vm_compute. reflexivity.
Defined.

Lemma report_within_capacity_witness :
  exists r,
    dtor (q (ch (sc_start glibc_RAND_MAX (always 300000000) (Z.to_nat 60000)
                   (boot 10)))) = Some r
    /\ r_fifo_size r = 10
    /\ r_total_transferred r = 10002
    /\ max_buffered (q (ch (sc_start glibc_RAND_MAX (always 300000000)
                              (Z.to_nat 60000) (boot 10)))) <= 10.
Proof.
  destruct (report_within_capacity glibc_RAND_MAX (always 300000000)
              eq_refl) with
    (size := 10)
    (s := sc_start glibc_RAND_MAX (always 300000000) (Z.to_nat 60000)
            (boot 10))
    as (Hmx & _ & r & Hr & Hsz & _ & _ & Hk & _).
  - intros n. unfold always, glibc_RAND_MAX. lia.
  - pose proof modulus_val. lia.
  - apply sc_start_reachable. constructor.
  - vm_compute. discriminate.
  - exists r. split; [exact Hr|]. split; [exact Hsz|].
    split; [|exact (proj2 Hmx)]. rewrite Hk. vm_compute. reflexivity.
Defined.

Lemma values_are_burst_positions_witness :
  Forall (fun v => 1 <= v <= 20)
    (contents (q (ch (sc_start glibc_RAND_MAX (always glibc_RAND_MAX) 57
                        (boot 10))))
     ++ in_flight (writer (ch (sc_start glibc_RAND_MAX (always glibc_RAND_MAX)
                                 57 (boot 10)))))
  /\ contents (q (ch (sc_start glibc_RAND_MAX (always glibc_RAND_MAX) 57
                        (boot 10))))
     ++ in_flight (writer (ch (sc_start glibc_RAND_MAX (always glibc_RAND_MAX)
                                 57 (boot 10))))
     = [10; 11; 12; 13; 14; 15; 16; 17; 18; 19; 20].
Proof.
  split; [|vm_compute; reflexivity].
  apply (values_are_burst_positions glibc_RAND_MAX (always glibc_RAND_MAX))
    with (size := 10).
  - reflexivity.
  - intros n. unfold always, glibc_RAND_MAX. lia.
  - pose proof modulus_val. lia.
  - apply sc_start_reachable. constructor.
Defined.


End ProgramLaws.

(** ** Termination *)

Module Termination.
Import Fifo Chan Model ChanProofs ModelProofs ProgramLaws.

#[local] Arguments burst_sum : simpl never.
#[local] Arguments burst_length : simpl never.
#[local] Arguments U32.wrap : simpl never.
#[local] Arguments exec : simpl never.

(** Decides the comparisons that the measure tests. *)
Ltac tests :=
  repeat match goal with
         | |- context [?a <=? ?b] => destruct (Z.leb_spec a b)
         | |- context [?a <? ?b] => destruct (Z.ltb_spec a b)
         | |- context [?a =? ?b] => destruct (Z.eqb_spec a b)
         end.

Ltac measures :=
  unfold measure, phi_prod, phi_cons, phi_mon, drain_cost, next_take,
    to_take, to_write, bursts_cost, unexpired; cbn.

Ltac measures' :=
  unfold measure, phi_prod, phi_cons, phi_mon, drain_cost, next_take,
    to_take, unexpired; cbn.

Section Bound.

Variable RAND_MAX : Z.
Variable rand : nat -> Z.

#[local] Abbreviation step := (Model.step RAND_MAX rand).
#[local] Abbreviation reachable := (Model.reachable RAND_MAX rand).
#[local] Abbreviation sys_inv := (Model.sys_inv RAND_MAX rand).

Hypothesis RAND_MAX_pos : 0 < RAND_MAX.
Hypothesis rand_range : forall n, 0 <= rand n <= RAND_MAX.

Lemma producer_lowers s s' :
  sys_inv s -> sched_inv s -> clock_inv s -> mon_inv s ->
  Model.producer_main RAND_MAX rand s = Some s' ->
  measure s' + 100 <= measure s.
Proof.
  intros Hsys Hsch Hck Hmon H. pose proof modulus_val as Hmod.
  pose proof (si_chan _ _ _ Hsys) as Hch.
  pose proof (si_burst _ _ _ Hsys) as Hb.
  pose proof (si_writer _ _ _ Hsys) as Hw.
  destruct (counts_small _ _ RAND_MAX_pos rand_range _ Hsys)
    as (Hrc & Hbs & _).
  destruct Hmon as [Hn Hc Hm].
  unfold Model.producer_main in H.
  destruct (negb _) eqn:Ht; [discriminate|]. apply negb_false_iff in Ht.
  pose proof (burst_length_range RAND_MAX RAND_MAX_pos _
                (rand_range (Nat.pred (draws s)))) as HL.
  pose proof (burst_length_range RAND_MAX RAND_MAX_pos _
                (rand_range (draws s))) as HL'.
  assert (Hpoll : forall t, p_pc (prod s) = P_Pace t -> t <= now (ch s))
    by (intros t; apply turn_producer_pace; done).
  assert (Hflag : p_pc (prod s) <> P_Done ->
                  sig_cur s = false
                  /\ (mon s = M_Flag \/ mon s = M_FlagWait)).
  { intros Hnd. destruct (sig_cur s) eqn:Hcur.
    - specialize (Hn (Hc eq_refl)). done.
    - split; [done|]. destruct (mon s); try tauto; by destruct Hm. }
  unfold Model.last_burst in *.
  destruct (prod s) as [pc tl i pd] eqn:Hp. cbn in *.
  destruct pc.
  - (* P_Loop *)
    destruct Hflag as [Hcur Hmn]; [done|]. got H.
    measures. rewrite Hp, Hcur. cbn.
    destruct Hmn as [-> | ->]; tests; lia.
  - (* P_Burst *)
    destruct Hflag as [Hcur Hmn]; [done|].
    destruct (Z.leb_spec 0 (i - 1)).
    + destruct (exec _ (ch s)) as [c1|] eqn:He; [|discriminate].
      destruct (exec_call_write _ _ _ Hch He)
        as [(E1 & E2 & E3 & E4 & E5)|(E1 & E2 & E3 & E4)].
      * rewrite E1 in H. got H.
        measures. rewrite Hp, Hcur, ?E2, ?E5. cbn.
        destruct Hmn as [-> | ->]; destruct (cons s); tests; lia.
      * rewrite E1 in H. got H.
        measures. rewrite Hp, Hcur, ?E2, ?E4. cbn.
        destruct Hmn as [-> | ->]; destruct (cons s); tests; lia.
    + destruct (Z.leb_spec tl 0); got H.
      * measures. rewrite Hp, Hcur. cbn.
        destruct Hmn as [-> | ->]; destruct (cons s); tests; lia.
      * measures. rewrite Hp, Hcur. cbn.
        destruct Hmn as [-> | ->]; destruct (cons s); tests; lia.
  - (* P_InWrite *)
    destruct Hflag as [Hcur Hmn]; [done|].
    destruct (exec _ (ch s)) as [c1|] eqn:He; [|discriminate]. got H.
    destruct (exec_resume_write _ _ Hch He) as (E1 & E2 & E3 & E4 & E5).
    measures. rewrite Hp, Hcur, ?E2, ?E5. cbn.
    destruct Hmn as [-> | ->]; destruct (cons s); tests; lia.
  - (* P_Pace *)
    destruct Hflag as [Hcur Hmn]; [done|]. got H.
    specialize (Hpoll _ eq_refl).
    measures. rewrite Hp, Hcur. cbn.
    destruct Hmn as [-> | ->]; destruct (cons s); tests; lia.
  - discriminate.
Qed.

Lemma consumer_lowers s s' :
  sys_inv s -> sched_inv s -> clock_inv s ->
  consumer_main s = Some s' ->
  measure s' + 100 <= measure s.
Proof.
  intros Hsys Hsch Hck H. pose proof modulus_val as Hmod.
  pose proof (si_chan _ _ _ Hsys) as Hch.
  destruct (counts_small _ _ RAND_MAX_pos rand_range _ Hsys)
    as (Hrc & Hbs & _).
  destruct Hck as [_ _ Hkp Hkc Hkm].
  unfold consumer_main in H.
  destruct (negb _) eqn:Ht; [discriminate|]. apply negb_false_iff in Ht.
  assert (Hpoll : forall t, cons s = C_Pace t -> t <= now (ch s))
    by (intros t; apply turn_consumer_pace; done).
  destruct (cons s) eqn:Hc.
  - (* C_Loop *)
    destruct (exec _ (ch s)) as [c1|] eqn:He; [|discriminate].
    chan_step He Hch Hch1.
    destruct Hch1 as [_ _ [Hc1 _ _] _ _ Hr1].
    destruct (exec_call_read _ _ Hch He)
      as [(E1 & E2 & E3 & E4 & E5)|(E1 & E2 & E3 & E4 & E5)].
    + rewrite E1 in H. got H.
      measures'. rewrite ?Hc, ?E2, ?E5 in *. cbn.
      destruct (p_pc (prod s)), (mon s), (sig_cur s); tests; lia.
    + rewrite E1 in H, Hr1. got H.
      measures'. rewrite ?Hc, ?E2, ?E5 in *. cbn.
      destruct (p_pc (prod s)), (mon s), (sig_cur s); tests; lia.
  - (* C_InRead *)
    destruct (exec _ (ch s)) as [c1|] eqn:He; [|discriminate]. got H.
    chan_step He Hch Hch1.
    destruct Hch1 as [_ _ [Hc1 _ _] _ _ Hr1].
    destruct (exec_resume_read _ _ Hch He) as (E1 & E2 & E3 & E4 & E5).
    measures'. rewrite ?Hc, ?E2, ?E5 in *. cbn.
    destruct (p_pc (prod s)), (mon s), (sig_cur s); tests; lia.
  - (* C_Pace *)
    got H. specialize (Hpoll _ eq_refl).
    measures'. rewrite ?Hc. cbn.
    destruct (p_pc (prod s)), (mon s), (sig_cur s); tests; lia.
Qed.

Lemma monitor_lowers s s' :
  sys_inv s -> sched_inv s -> clock_inv s -> mon_inv s ->
  monitor_thread s = Some s' ->
  measure s' + 100 <= measure s.
Proof.
  intros Hsys Hsch Hck Hmon H.
  destruct (counts_small _ _ RAND_MAX_pos rand_range _ Hsys)
    as (Hrc & Hbs & _).
  destruct Hck as [_ _ Hkp Hkc Hkm]. destruct Hmon as [Hn Hc Hm].
  unfold monitor_thread in H.
  destruct (negb _) eqn:Ht; [discriminate|]. apply negb_false_iff in Ht.
  assert (Hpoll : forall t, mon s = M_Poll t -> t <= now (ch s))
    by (intros t; apply turn_monitor_poll; done).
  destruct (mon s) eqn:Hmn.
  - (* M_Flag *)
    destruct (sig_cur s) eqn:Hcur; got H.
    + specialize (Hn (Hc eq_refl)).
      measures'. rewrite ?Hmn, ?Hcur. unfold to_write. rewrite Hn. cbn.
      destruct (cons s); tests; lia.
    + measures'. rewrite ?Hmn, ?Hcur. cbn.
      destruct (p_pc (prod s)), (cons s); tests; lia.
  - discriminate.
  - (* M_Drain *)
    unfold is_empty in H.
    destruct (Z.eqb_spec (buffer_size (q (ch s))) 0) as [He|He]; got H.
    + measures'. rewrite ?Hmn. cbn.
      destruct (p_pc (prod s)), (cons s), (sig_cur s); tests; lia.
    + measures'. rewrite ?Hmn. cbn.
      destruct (p_pc (prod s)), (cons s), (sig_cur s); tests; lia.
  - (* M_Poll *)
    got H. specialize (Hpoll _ eq_refl).
    measures'. rewrite ?Hmn. cbn.
    destruct (p_pc (prod s)), (cons s), (sig_cur s); tests; lia.
  - discriminate.
Qed.

Lemma update_lowers s s' :
  mon_inv s -> update_phase s = Some s' -> measure s' + 100 <= measure s.
Proof.
  intros [Hn Hc Hm] H. unfold update_phase in H.
  destruct (settled s) eqn:Hset; [|discriminate]. cbn in H.
  destruct (negb _) eqn:Hne; [|discriminate]. got H.
  apply negb_true_iff in Hne.
  assert (Hcur : sig_cur s = false /\ sig_new s = true).
  { destruct (sig_cur s), (sig_new s); try discriminate; try done.
    by specialize (Hc eq_refl). }
  destruct Hcur as [Hcur Hnew].
  unfold settled in Hset. destruct (running s); [discriminate|].
  apply andb_true_iff in Hset as [_ H3]. apply negb_true_iff in H3.
  cbn in H3.
  measures'. rewrite ?Hcur, ?Hnew. cbn.
  destruct (mon s); try discriminate; try (destruct Hm; congruence).
  destruct (p_pc (prod s)), (cons s); tests; lia.
Qed.

Lemma advance_lowers s s' :
  sys_inv s -> clock_inv s ->
  advance_time s = Some s' -> measure s' + 100 <= measure s.
Proof.
  intros Hsys Hck H.
  pose proof (si_chan _ _ _ Hsys) as [_ _ _ _ _ Hir].
  pose proof (si_reader _ _ _ Hsys) as Hrd.
  destruct Hck as [_ _ Hkp Hkc Hkm].
  unfold advance_time in H.
  destruct (settled s) eqn:Hset; [|discriminate]. cbn in H.
  destruct (Bool.eqb _ _); [|discriminate].
  destruct (next_wake s) as [t|] eqn:Hw; [|discriminate].
  destruct (exec _ (ch s)) as [c1|] eqn:He; [|discriminate]. got H.
  destruct (exec_advance _ _ _ He) as (E1 & _ & _ & E4 & E5).
  destruct (next_wake_spec _ _ Hw) as (Hin & W1 & W2 & W3).
  unfold settled in Hset. destruct (running s); [discriminate|].
  apply andb_true_iff in Hset as [Hset H3].
  apply andb_true_iff in Hset as [H1 H2].
  apply negb_true_iff in H1, H2, H3. cbn in H1, H2, H3.
  measures'. rewrite ?E1, ?E4. cbn.
  destruct (p_pc (prod s)) eqn:Hpc; try discriminate;
    destruct (cons s) eqn:Hcs; try discriminate;
    destruct (mon s) eqn:Hmn; try discriminate.
  all: try specialize (W1 _ eq_refl).
  all: try specialize (W2 _ eq_refl).
  all: try specialize (W3 _ eq_refl).
  all: try (destruct (reader (ch s)); try discriminate; try done).
  all: destruct Hin as [Hin|[Hin|Hin]]; try discriminate;
    try (inversion Hin; subst).
  all: destruct (sig_cur s); tests; lia.
Qed.

(** Every move lowers the measure by at least 100. *)
Lemma step_lowers : forall s s',
  sys_inv s -> sched_inv s -> clock_inv s -> mon_inv s ->
  step s s' -> measure s' + 100 <= measure s.
Proof.
  intros s0 s0' Hsys Hsch Hck Hmon Hstep.
  destruct Hstep as [s s' H|s s' H|s s' H|s s' H|s s' H].
  - by apply producer_lowers.
  - by apply consumer_lowers.
  - by apply monitor_lowers.
  - by apply update_lowers.
  - by apply advance_lowers.
Qed.

Lemma measure_nonneg s : sys_inv s -> clock_inv s -> 0 <= measure s.
Proof.
  intros Hsys Hck.
  pose proof (si_burst _ _ _ Hsys) as Hb.
  destruct (counts_small _ _ RAND_MAX_pos rand_range _ Hsys)
    as (Hrc & Hbs & _).
  pose proof (burst_length_range RAND_MAX RAND_MAX_pos _
                (rand_range (Nat.pred (draws s)))) as HL.
  unfold Model.last_burst in *.
  measures.
  destruct (p_pc (prod s)), (cons s), (mon s), (sig_cur s); tests; lia.
Qed.

Lemma reachable_in_reachable size n s :
  reachable_in RAND_MAX rand size n s -> reachable size s.
Proof.
  induction 1; [constructor|]. eapply reachable_step; eauto.
Qed.

Lemma reachable_in_measure size n s :
  1 <= size < U32.modulus ->
  reachable_in RAND_MAX rand size n s ->
  100 * Z.of_nat n + measure s <= 100 * Z.of_nat max_moves.
Proof.
  intros Hsize. induction 1 as [|n s s' Hs IH Hstep].
  - vm_compute. discriminate.
  - pose proof (reachable_in_reachable _ _ _ Hs) as Hr.
    pose proof (step_lowers s s'
                  (reachable_sys_inv _ _ RAND_MAX_pos rand_range _ _ Hsize Hr)
                  (reachable_sched_inv _ _ _ _ Hr)
                  (reachable_clock_inv _ _ _ _ Hr)
                  (reachable_mon_inv _ _ _ _ Hr) Hstep).
    lia.
Qed.

Lemma sc_start_moves size fuel : forall n s s',
  reachable_in RAND_MAX rand size n s ->
  sched RAND_MAX rand (sc_start RAND_MAX rand fuel s) = Some s' ->
  reachable_in RAND_MAX rand size (S (fuel + n)) s'.
Proof.
  induction fuel as [|fuel IH]; intros n s s' Hs Hnext; cbn [sc_start] in *.
  - eapply reachable_in_step; [exact Hs|]. by apply sched_step.
  - destruct (sched RAND_MAX rand s) as [s1|] eqn:E; [|congruence].
    replace (S (S fuel + n)) with (S (fuel + S n)) by lia.
    apply (IH (S n) s1 s'); [|done].
    eapply reachable_in_step; [exact Hs|]. by apply sched_step.
Qed.

(** X13: the simulation always ends, and it ends complete.  Whatever
    [rand()] returns and however the runnable threads are chosen, no run
    makes more than [max_moves] moves; so [sc_start()], which runs until no
    move is left, returns, and in the state in which it returns the producer
    has returned, the monitor has printed its line and returned, the queue is
    empty and every element of every burst drawn has been taken. *)
Theorem simulation_terminates (size : Z) :
  1 <= size < U32.modulus ->
  (forall n s, reachable_in RAND_MAX rand size n s -> (n <= max_moves)%nat)
  /\ let fin := sc_start RAND_MAX rand max_moves (boot size) in
     sched RAND_MAX rand fin = None
     /\ p_pc (prod fin) = P_Done
     /\ mon fin = M_Done
     /\ (exists t, console fin = [t])
     /\ is_empty (q (ch fin)) = true
     /\ read_count (q (ch fin)) = burst_sum RAND_MAX rand (draws fin).
Proof.
  intros Hsize.
  assert (Hbound : forall n s, reachable_in RAND_MAX rand size n s ->
                     (n <= max_moves)%nat).
  { intros n s Hs.
    pose proof (reachable_in_measure size n s Hsize Hs).
    pose proof (reachable_in_reachable _ _ _ Hs) as Hr.
    pose proof (measure_nonneg s
                  (reachable_sys_inv _ _ RAND_MAX_pos rand_range _ _ Hsize Hr)
                  (reachable_clock_inv _ _ _ _ Hr)).
    lia. }
  split; [exact Hbound|]. intros fin.
  assert (Hend : sched RAND_MAX rand fin = None).
  { destruct (sched RAND_MAX rand fin) as [s'|] eqn:E; [|done].
    pose proof (sc_start_moves size max_moves 0 (boot size) s'
                  (reachable_in_boot _ _ _) E) as Hs.
    apply Hbound in Hs. lia. }
  assert (Hreach : reachable size fin)
    by (apply sc_start_reachable; constructor).
  destruct (halted_state _ _ RAND_MAX_pos rand_range size fin Hsize Hreach Hend)
    as (H1 & H2 & H3 & _ & _ & H4 & H5 & _).
  conjs; done.
Qed.

End Bound.
Lemma simulation_terminates_witness :
  sched glibc_RAND_MAX (always 300000000)
    (sc_start glibc_RAND_MAX (always 300000000) max_moves (boot 10)) = None
  /\ draws (sc_start glibc_RAND_MAX (always 300000000) max_moves (boot 10))
     = 3334%nat.
Proof.
  split; [|vm_compute; reflexivity].
  apply (simulation_terminates glibc_RAND_MAX (always 300000000) eq_refl)
    with (size := 10).
  - intros n. unfold always, glibc_RAND_MAX. lia.
  - pose proof modulus_val. lia.
Defined.


End Termination.
